(** * mtail: the metric store and the bytecode of compiled programs

    A shallow embedding of [internal/metrics/store.go] (the [Store] of
    [*Metric] objects: [Add], [FindMetricOrNil], [ClearMetrics], [Range],
    [Gc]) and of the compiler test table [programs], with the properties the
    specification states about them.

    Go pointers are addresses into a heap of [Metric] objects, so that two
    references to one object see each other's writes; methods are state
    transformers over the store and that heap, and a nil or dangling
    dereference (a Go panic) is the [None] outcome. *)

From stdpp Require Import base option list gmap strings.
From Stdlib Require Import ZArith Lia Ascii.

Open Scope Z_scope.

(** ** Data model *)

(** Modelled from the spec: the [Kind] of a metric (the declarations of
    the Metric and Datum model are not in the store's file): Counter,
    Gauge, Timer or Histogram. *)
Inductive Kind := Counter | Gauge | Timer | Histogram.

#[global] Instance Kind_eq_dec : EqDecision Kind.
Proof. solve_decision. Defined.

(** Instants and durations ([time.Time], [time.Duration]) are counts of
    nanoseconds, as integers. *)
Abbreviation Time := Z (only parsing).
Abbreviation Duration := Z (only parsing).

(** The smallest and the largest [time.Duration], a signed 64-bit count. *)
Definition minDuration : Duration := -9223372036854775808.
Definition maxDuration : Duration := 9223372036854775807.

(** [t.Sub(u)]: the duration [t - u], or the largest (smallest) Duration
    when the difference is beyond it. *)
Definition Sub (t u : Time) : Duration :=
  if t - u >? maxDuration then maxDuration
  else if t - u <? minDuration then minDuration
  else t - u.

(** Modelled from the spec: the value cell of a [Datum], an integer or a
    floating-point number (kept as its bit pattern). *)
Inductive DatumValue := IntVal (n : Z) | FloatVal (bits : Z).

#[global] Instance DatumValue_eq_dec : EqDecision DatumValue.
Proof. solve_decision. Defined.

(** Modelled from the spec: a [Datum], a value cell and the timestamp of
    its last write. *)
Record Datum := mkDatum { dValue : DatumValue; dTime : Time }.

#[global] Instance Datum_eq_dec : EqDecision Datum.
Proof. solve_decision. Defined.

(** [d.TimeUTC()]: the timestamp of the Datum. *)
Definition TimeUTC (d : Datum) : Time := dTime d.

(** Modelled from the spec: the zero Datum that the first touch of a label
    tuple creates. *)
Definition zeroDatum : Datum := mkDatum (IntVal 0) 0.

(** Modelled from the spec: [LabelValue], one label tuple, its Datum and
    its expiry (zero: never expires); the fields are those [Add] and [Gc]
    use. *)
Record LabelValue := mkLabelValue {
  Labels : list string;
  Value : Datum;
  Expiry : Duration
}.

#[global] Instance LabelValue_eq_dec : EqDecision LabelValue.
Proof. solve_decision. Defined.

(** A Go slice as [len] and [reflect.DeepEqual] see it: the nil slice, or
    a slice that is not nil, with its elements. A list written where a
    slice is expected is the slice of its elements, which is not nil. *)
Inductive slice (A : Type) := nil_slice | make_slice (elems : list A).
Arguments nil_slice {A}.
Arguments make_slice {A} elems.
Coercion make_slice : list >-> slice.

#[global] Instance slice_eq_dec {A} `{EqDecision A} : EqDecision (slice A).
Proof. solve_decision. Defined.

(** [len(s)] *)
Definition len {A} (s : slice A) : nat :=
  match s with
  | nil_slice => 0
  | make_slice elems => length elems
  end.

(** Modelled from the spec: [Metric], identified by its name and program,
    with a Kind, the ordered slice of its label keys and its LabelValues;
    the fields are those the store reads ([MKind] is the field [Kind]). *)
Record Metric := mkMetric {
  Name : string;
  Program : string;
  MKind : Kind;
  Keys : slice string;
  LabelValues : list LabelValue
}.

#[global] Instance Metric_eq_dec : EqDecision Metric.
Proof. solve_decision. Defined.

Definition set_LabelValues (m : Metric) (lvs : list LabelValue) : Metric :=
  mkMetric (Name m) (Program m) (MKind m) (Keys m) lvs.

(** Go [error] values: the error of [Add], the not-found condition of
    [RemoveDatum], and any other. A nil error is [None] of [option error]. *)
Inductive error :=
| ErrDifferentKind (name : string) (kind existing : Kind)
| ErrNotFound (labels : list string)
| ErrOther (msg : string).

#[global] Instance error_eq_dec : EqDecision error.
Proof. solve_decision. Defined.

(** A call that returns [(value, error)]. *)
Inductive result (A : Type) := Ok (a : A) | Err (e : error).
Arguments Ok {A} a.
Arguments Err {A} e.

(** Addresses of [Metric] objects, hash keys and hash seeds. *)
Abbreviation ptr := positive (only parsing).
Abbreviation uint64 := N (only parsing).
Abbreviation Seed := N (only parsing).

(** [Store]: the [sync.Map] from hash key to [*Metric], and the hash seed. *)
Record Store := mkStore {
  Metrics : gmap N positive;
  hashSeed : Seed
}.

(** The state methods run in: the store and the heap of Metric objects. *)
Record World := mkWorld {
  store : Store;
  heap : gmap positive Metric
}.

Definition set_Metrics (w : World) (mp : gmap N positive) : World :=
  mkWorld (mkStore mp (hashSeed (store w))) (heap w).

Definition set_heap (w : World) (h : gmap positive Metric) : World :=
  mkWorld (store w) h.

(** ** A state monad with failure

    A computation over a state [S] returns a value and the next state, or
    does not return normally ([None]): a Go panic for the store, a compile
    error for the code generator. *)

Definition M (S A : Type) : Type := S -> option (A * S).

Definition ret {S A} (a : A) : M S A := fun s => Some (a, s).

Definition bind {S A B} (x : M S A) (f : A -> M S B) : M S B :=
  fun s => match x s with
           | Some (a, s') => f a s'
           | None => None
           end.

Notation "x <- c1 ;; c2" := (bind c1 (fun x => c2))
  (at level 100, c1 at next level, right associativity).
Notation "c1 ;;; c2" := (bind c1 (fun _ => c2))
  (at level 100, right associativity).

(** [*p] *)
Definition deref (p : ptr) : M World Metric :=
  fun w => match heap w !! p with
           | Some m => Some (m, w)
           | None => None
           end.

(** [*p = m]; the object must exist. *)
Definition assign (p : ptr) (m : Metric) : M World unit :=
  fun w => match heap w !! p with
           | Some _ => Some (tt, set_heap w (<[p := m]> (heap w)))
           | None => None
           end.

(** [s], the store the method is called on. *)
Definition get_store : M World Store := fun w => Some (store w, w).

(** ** [sync.Map]

    The map of the store, through its methods. [Range] meets the entries
    [es] that the map holds when the call begins, in an order of its own,
    and calls [f] on them in turn until [f] returns false. It works on no
    snapshot: [f] may store and delete keys, an entry whose key was
    deleted before its turn is passed over, and one whose key was stored
    anew is passed with the value it has then. Whether [Range] meets a
    key that is first stored during the call is left open by [sync.Map];
    here it does not. *)

Definition Map_Load (k : uint64) : M World (option ptr) :=
  fun w => Some (Metrics (store w) !! k, w).

Definition Map_LoadOrStore (k : uint64) (v : ptr) : M World (ptr * bool) :=
  fun w => match Metrics (store w) !! k with
           | Some actual => Some ((actual, true), w)
           | None => Some ((v, false), set_Metrics w (<[k := v]> (Metrics (store w))))
           end.

Definition Map_Store (k : uint64) (v : ptr) : M World unit :=
  fun w => Some (tt, set_Metrics w (<[k := v]> (Metrics (store w)))).

Definition Map_Delete (k : uint64) : M World unit :=
  fun w => Some (tt, set_Metrics w (delete k (Metrics (store w)))).

(** The entry that [Range] passes to [f] for the entry [(key, value)] it
    met in the map [began], at a turn at which the map is [mp]: the entry
    as it was met, unless the key was stored or deleted since the call
    began; then the mapping the key has, if any. *)
Definition Map_entry (began mp : gmap N positive) (key : uint64) (value : ptr)
  : option ptr :=
  if decide (mp !! key = began !! key) then Some value else mp !! key.

(** [Range] over the entries [es] of the map [began], in a state in which
    [cur] reads the map. *)
Fixpoint Map_Range {S} (cur : S -> gmap N positive) (began : gmap N positive)
    (f : uint64 -> ptr -> M S bool) (es : list (N * positive)) : M S unit :=
  match es with
  | [] => ret tt
  | (key, value) :: es' =>
      fun s =>
        match Map_entry began (cur s) key value with
        | Some v =>
            (continue <- f key v ;;
             if continue then Map_Range cur began f es' else ret tt) s
        | None => Map_Range cur began f es' s
        end
  end.

(** [reflect.DeepEqual] on two key slices: both nil, or both not nil with
    the same strings in the same order. A nil slice and an empty slice
    that is not nil are not deeply equal. *)
Definition DeepEqual (a b : slice string) : bool := bool_decide (a = b).

(** ** The methods of [Metric] that the store calls

    [GetDatum] and [RemoveDatum] act on one Metric: each returns the Metric
    as it leaves it, and its result. *)
Class MetricOps := {
  GetDatum : Metric -> list string -> Metric * result Datum;
  RemoveDatum : Metric -> list string -> Metric * option error
}.

(** The label tuples a Metric holds. *)
Definition tuples (m : Metric) : list (list string) := Labels <$> LabelValues m.

Definition hasLabels (labels : list string) (lv : LabelValue) : bool :=
  bool_decide (Labels lv = labels).

(** Modelled from the spec: [Metric.GetDatum], whose code is in the Metric
    and Datum model and not in the store. It works on the exact ordered label
    tuple and upserts: the tuple's Datum when a LabelValue holds it, and on a
    miss a new LabelValue with a zero Datum. *)
Definition spec_GetDatum (m : Metric) (labels : list string) : Metric * result Datum :=
  match List.find (hasLabels labels) (LabelValues m) with
  | Some lv => (m, Ok (Value lv))
  | None =>
      (set_LabelValues m (LabelValues m ++ [mkLabelValue labels zeroDatum 0]),
       Ok zeroDatum)
  end.

(** Modelled from the spec: [Metric.RemoveDatum], whose code is in the Metric
    and Datum model and not in the store. It works on the exact ordered label
    tuple: it removes the tuple's LabelValue, and fails with a not-found
    condition when no LabelValue holds the tuple. *)
Definition spec_RemoveDatum (m : Metric) (labels : list string) : Metric * option error :=
  if decide (labels ∈ tuples m)
  then (set_LabelValues m (filter (fun lv => Labels lv <> labels) (LabelValues m)), None)
  else (m, Some (ErrNotFound labels)).

#[global] Instance spec_ops : MetricOps :=
  {| GetDatum := spec_GetDatum; RemoveDatum := spec_RemoveDatum |}.

(** ** [hash/maphash] *)

(** A [maphash.Hash]: its seed and the bytes written so far. *)
Record Hash := mkHash { hSeed : Seed; hBytes : string }.

Definition zeroHash : Hash := mkHash 0%N "".
Definition SetSeed (h : Hash) (seed : Seed) : Hash := mkHash seed "".
Definition WriteString (h : Hash) (s : string) : Hash :=
  mkHash (hSeed h) (hBytes h +:+ s).

Section StoreMethods.

Context {ops : MetricOps}.

(** The hash function of the Go runtime behind [Sum64]: a function of the
    seed and of the sequence of bytes written. *)
Variable rthash : Seed -> string -> uint64.

(** The order in which [sync.Map.Range] visits the entries of a map. *)
Variable visit : gmap N positive -> list (N * positive).

Definition Sum64 (h : Hash) : uint64 := rthash (hSeed h) (hBytes h).

Definition hashMetric (s : Store) (name prog : string) : uint64 :=
  let h := zeroHash in
  let h := SetSeed h (hashSeed s) in
  let h := WriteString h name in
  let h := WriteString h prog in
  Sum64 h.

(** [m.GetDatum(labels...)] and [m.RemoveDatum(labels...)] through a pointer. *)
Definition Metric_GetDatum (p : ptr) (labels : list string) : M World (result Datum) :=
  m <- deref p ;;
  let '(m', r) := GetDatum m labels in
  assign p m' ;;;
  ret r.

Definition Metric_RemoveDatum (p : ptr) (labels : list string) : M World (option error) :=
  m <- deref p ;;
  let '(m', r) := RemoveDatum m labels in
  assign p m' ;;;
  ret r.

(** [m.LabelValues = append(m.LabelValues, lv)] *)
Definition appendLabelValue (p : ptr) (lv : LabelValue) : M World unit :=
  m <- deref p ;;
  assign p (set_LabelValues m (LabelValues m ++ [lv])).

(** The loop of [Add] over the LabelValues [v] had when the loop began. *)
Fixpoint Add_copy (v m : ptr) (old : list LabelValue) : M World unit :=
  match old with
  | [] => ret tt
  | oldLabel :: rest =>
      r <- Metric_GetDatum v (Labels oldLabel) ;;
      match r with
      | Ok d =>
          err <- Metric_RemoveDatum m (Labels oldLabel) ;;
          match err with
          | None => appendLabelValue m (mkLabelValue (Labels oldLabel) d 0)
          | Some _ => ret tt
          end
      | Err _ => ret tt
      end ;;;
      Add_copy v m rest
  end.

(** [Store.Add] *)
Definition Add (m : ptr) : M World (option error) :=
  mv <- deref m ;;
  s <- get_store ;;
  let k := hashMetric s (Name mv) (Program mv) in
  r <- Map_LoadOrStore k m ;;
  let '(actual, loaded) := r in
  if negb loaded then ret None else
  let v := actual in
  mv <- deref m ;;
  vv <- deref v ;;
  if negb (bool_decide (MKind mv = MKind vv))
  then ret (Some (ErrDifferentKind (Name mv) (MKind mv) (MKind vv)))
  else
    (if (len (Keys vv) =? len (Keys mv))%nat && DeepEqual (Keys vv) (Keys mv)
     then Add_copy v m (LabelValues vv)
     else ret tt) ;;;
    Map_Store k m ;;;
    ret None.

(** [Store.FindMetricOrNil] *)
Definition FindMetricOrNil (name prog : string) : M World (option ptr) :=
  s <- get_store ;;
  let k := hashMetric s name prog in
  r <- Map_Load k ;;
  match r with
  | Some m => ret (Some m)
  | None => ret None
  end.

(** [Store.ClearMetrics] *)
Definition ClearMetrics : M World unit :=
  s <- get_store ;;
  Map_Range (fun w => Metrics (store w)) (Metrics s)
    (fun key value => Map_Delete key ;;; ret true) (visit (Metrics s)).

(** [NewStore], given the seed [maphash.MakeSeed] drew: a new map is
    empty, and [ClearMetrics] leaves it so. *)
Definition NewStore (seed : Seed) : Store := mkStore ∅ seed.

(** The function that [Store.Range] passes to [sync.Map.Range]. It runs
    in the state of [f] and the result variable [r]: on an error of [f]
    it sets [r] and returns false, otherwise it returns true. *)
Definition Range_body {S} (f : ptr -> M S (option error)) (key : uint64) (value : ptr)
  : M (S * option error) bool :=
  fun sr =>
    match f value (fst sr) with
    | Some (Some err, s') => Some (false, (s', Some err))
    | Some (None, s') => Some (true, (s', snd sr))
    | None => None
    end.

(** [Store.Range]. The callback [f] runs in a state [S] that holds the
    store and the Metric objects (read through [view]) and whatever else
    the closure captured. *)
Definition Range {S} (view : S -> World) (f : ptr -> M S (option error))
  : M S (option error) :=
  fun s =>
    let began := Metrics (store (view s)) in
    match Map_Range (fun sr => Metrics (store (view (fst sr)))) began (Range_body f)
                    (visit began) (s, None) with
    | Some (_, (s', r)) => Some (r, s')
    | None => None
    end.

(** The body of the callback of [Gc]: the loop over the LabelValues the
    Metric had when the loop began. *)
Fixpoint Gc_loop (now : Time) (m : ptr) (lvs : list LabelValue) : M World (option error) :=
  match lvs with
  | [] => ret None
  | lv :: rest =>
      if Expiry lv <=? 0 then Gc_loop now m rest
      else if Sub now (TimeUTC (Value lv)) >? Expiry lv then
        err <- Metric_RemoveDatum m (Labels lv) ;;
        match err with
        | Some e => ret (Some e)
        | None => Gc_loop now m rest
        end
      else Gc_loop now m rest
  end.

Definition Gc_metric (now : Time) (m : ptr) : M World (option error) :=
  mv <- deref m ;;
  Gc_loop now m (LabelValues mv).

(** [Store.Gc], run when [time.Now()] is [now]. *)
Definition Gc (now : Time) : M World (option error) :=
  Range id (Gc_metric now).

End StoreMethods.

Arguments hashMetric rthash s name prog : simpl never.

(** ** The other methods of the store *)

(** What the goroutine of [StartGcLoop] receives: a tick of the ticker,
    with the time [Gc] then reads, or the end of the context. *)
Inductive event := Tick (now : Time) | Done.

Section StoreService.

Context {ops : MetricOps}.
Variable visit : gmap N positive -> list (N * positive).

(** [json.Marshal] on a slice of [*Metric]: it reads the Metric objects. *)
Variable json_Marshal : gmap positive Metric -> list positive -> result string.

(** [Store.MarshalJSON]: [sync.Map.Range] appends every Metric of the
    store to [ms], and [ms] is marshalled. *)
Definition MarshalJSON : M World (result string) :=
  fun w =>
    let body (key : uint64) (value : ptr) : M (World * list ptr) bool :=
      fun wms => Some (true, (fst wms, snd wms ++ [value])) in
    let began := Metrics (store w) in
    match Map_Range (fun wms => Metrics (store (fst wms))) began body
                    (visit began) (w, []) with
    | Some (_, (w', ms)) => Some (json_Marshal (heap w') ms, w')
    | None => None
    end.

(** The loop of the goroutine of [StartGcLoop] over the events it
    receives: a tick runs [Gc] and logs its error, if any, and goes on;
    the end of the context returns. The result is the errors logged. *)
Fixpoint GcLoop (events : list event) : M World (list error) :=
  match events with
  | [] => ret []
  | Done :: _ => ret []
  | Tick now :: rest =>
      err <- Gc visit now ;;
      logged <- GcLoop rest ;;
      ret (match err with
           | Some e => e :: logged
           | None => logged
           end)
  end.

(** [Store.StartGcLoop]: no loop when the duration is not positive. *)
Definition StartGcLoop (duration : Duration) (events : list event) : M World (list error) :=
  if duration <=? 0 then ret [] else GcLoop events.

End StoreService.

(** ** Vocabulary of the properties *)

(** The iteration of [Range] over the entries [es], as one loop: the
    first error of [f] is the result. *)
Fixpoint Range_loop {S} (f : ptr -> M S (option error)) (es : list (N * positive))
  : M S (option error) :=
  match es with
  | [] => ret None
  | (_, value) :: es' =>
      err <- f value ;;
      match err with
      | Some e => ret (Some e)
      | None => Range_loop f es'
      end
  end.

(** The test of [Gc] on one LabelValue: it has an expiry and [now] is past
    it. *)
Definition expired (now : Time) (lv : LabelValue) : bool :=
  negb (Expiry lv <=? 0) && (Sub now (TimeUTC (Value lv)) >? Expiry lv).

(** A Metric without its expired LabelValues. *)
Definition sweep (now : Time) (m : Metric) : Metric :=
  set_LabelValues m (filter (fun lv => expired now lv = false) (LabelValues m)).

(** [f] is applied to the Metrics [ps] in turn, from state [s] to state [s'],
    and returns a nil error each time. *)
Inductive calls_nil {S} (f : ptr -> M S (option error)) : list ptr -> S -> S -> Prop :=
| calls_nil_done s : calls_nil f [] s s
| calls_nil_step p ps s s1 s2 :
    f p s = Some (None, s1) ->
    calls_nil f ps s1 s2 ->
    calls_nil f (p :: ps) s s2.

(** [f] was applied to the Metrics [ps] in turn, from state [s] to state
    [s'], and [r] is what came of it: nil when every call returned nil;
    an error when the last call returned it and every call before
    returned nil. *)
Definition calls_until_error {S} (f : ptr -> M S (option error))
    (ps : list ptr) (s s' : S) (r : option error) : Prop :=
  match r with
  | None => calls_nil f ps s s'
  | Some e =>
      exists pre p s1,
        ps = pre ++ [p] /\ calls_nil f pre s s1 /\ f p s1 = Some (Some e, s')
  end.

(** The callback [f], made to panic when it is passed a Metric that the
    store does not hold at that moment. *)
Definition on_stored {S} (view : S -> World) (f : ptr -> M S (option error)) (p : ptr)
  : M S (option error) :=
  fun s =>
    if decide (p ∈ (map_to_list (Metrics (store (view s)))).*2) then f p s else None.

(** What a call on the Metric at [p] may change: that object's contents.
    The store and the set of objects stay, and every other object. *)
Definition frame_at (p : ptr) (w w' : World) : Prop :=
  store w' = store w /\
  dom (heap w') = dom (heap w) /\
  forall q, q <> p -> heap w' !! q = heap w !! q.

(** The callback [f] with a log of the Metrics it was applied to. *)
Definition logged {S} (f : ptr -> M S (option error)) (p : ptr)
  : M (S * list ptr) (option error) :=
  fun sl => match f p (fst sl) with
            | Some (r, s') => Some (r, (s', snd sl ++ [p]))
            | None => None
            end.

(** A hash function to run the store with: a polynomial hash of the bytes,
    started at the seed, modulo [2^64]. *)
Fixpoint sample_rthash (seed : Seed) (s : string) : uint64 :=
  match s with
  | EmptyString => seed
  | String c s' => sample_rthash ((seed * 31 + N.of_nat (Ascii.nat_of_ascii c)) mod 2 ^ 64)%N s'
  end.

(** ** Bytecode and the code generator *)

Module Compiler.

(** Modelled from the spec: the opcodes of the instruction set (section
    4.1); the test table names those it uses. *)
Inductive opcode :=
| match_ | jnm | jm | jmp
| push | pop
| capref | str | mload | dload | inc | set
| cmp | s2i | i2s | s2f | f2s
| setmatched | strptime.

#[global] Instance opcode_eq_dec : EqDecision opcode.
Proof. solve_decision. Defined.

(** [instr]: an opcode and its operand, as the test table builds them. *)
Record instr := mkInstr { op : opcode; opnd : Z }.

#[global] Instance instr_eq_dec : EqDecision instr.
Proof. solve_decision. Defined.

Definition nl : string := String "010"%char "".
Definition dq : string := String "034"%char "".

(** The table [programs] of [TestCompile]: a name, the source text, and the
    bytecode [Compile] is expected to produce for it. *)
Definition programs : list (string * (string * list instr)) :=
  [ ("simple line counter",
     ("counter line_count" +:+ nl +:+ "/$/ { line_count++ }",
      [mkInstr match_ 0; mkInstr jnm 4; mkInstr mload 0; mkInstr inc 0]));
    ("count a",
     ("counter a_count" +:+ nl +:+ "/a$/ { a_count++ }",
      [mkInstr match_ 0; mkInstr jnm 4; mkInstr mload 0; mkInstr inc 0]));
    ("strptime and capref",
     ("counter foo" +:+ nl +:+
      "/(.*)/ { strptime($1, " +:+ dq +:+ "2006-01-02T15:04:05" +:+ dq +:+ ")" +:+
      "foo++ }",
      [mkInstr match_ 0; mkInstr jnm 8; mkInstr push 0; mkInstr capref 1;
       mkInstr str 0; mkInstr strptime 2; mkInstr mload 0; mkInstr inc 0]));
    ("strptime and named capref",
     ("counter foo" +:+ nl +:+
      "/(?P<date>.*)/ { strptime($date, " +:+ dq +:+ "2006-01-02T15:04:05" +:+ dq +:+ ")" +:+
      "foo++ }",
      [mkInstr match_ 0; mkInstr jnm 8; mkInstr push 0; mkInstr capref 1;
       mkInstr str 0; mkInstr strptime 2; mkInstr mload 0; mkInstr inc 0]));
    ("inc by and set",
     ("counter foo" +:+ nl +:+ "counter bar" +:+ nl +:+
      "/(.*)/ {" +:+ nl +:+
      "foo += $1" +:+ nl +:+
      "bar = $1" +:+ nl +:+
      "}",
      [mkInstr match_ 0; mkInstr jnm 10; mkInstr mload 0; mkInstr push 0;
       mkInstr capref 1; mkInstr inc 1; mkInstr mload 1; mkInstr push 0;
       mkInstr capref 1; mkInstr set 0]));
    ("cond expr gt",
     ("counter foo" +:+ nl +:+ "1 > 0 {" +:+ nl +:+ "  foo++" +:+ nl +:+ "}" +:+ nl,
      [mkInstr push 1; mkInstr push 0; mkInstr cmp 1; mkInstr jnm 6;
       mkInstr mload 0; mkInstr inc 0]));
    ("cond expr lt",
     ("counter foo" +:+ nl +:+ "1 < 0 {" +:+ nl +:+ "  foo++" +:+ nl +:+ "}" +:+ nl,
      [mkInstr push 1; mkInstr push 0; mkInstr cmp (-1); mkInstr jnm 6;
       mkInstr mload 0; mkInstr inc 0]));
    ("cond expr eq",
     ("counter foo" +:+ nl +:+ "1 == 0 {" +:+ nl +:+ "  foo++" +:+ nl +:+ "}" +:+ nl,
      [mkInstr push 1; mkInstr push 0; mkInstr cmp 0; mkInstr jnm 6;
       mkInstr mload 0; mkInstr inc 0]));
    ("cond expr le",
     ("counter foo" +:+ nl +:+ "1 <= 0 {" +:+ nl +:+ "  foo++" +:+ nl +:+ "}" +:+ nl,
      [mkInstr push 1; mkInstr push 0; mkInstr cmp 1; mkInstr jm 6;
       mkInstr mload 0; mkInstr inc 0]));
    ("cond expr ge",
     ("counter foo" +:+ nl +:+ "1 >= 0 {" +:+ nl +:+ "  foo++" +:+ nl +:+ "}" +:+ nl,
      [mkInstr push 1; mkInstr push 0; mkInstr cmp (-1); mkInstr jm 6;
       mkInstr mload 0; mkInstr inc 0]));
    ("cond expr ne",
     ("counter foo" +:+ nl +:+ "1 != 0 {" +:+ nl +:+ "  foo++" +:+ nl +:+ "}" +:+ nl,
      [mkInstr push 1; mkInstr push 0; mkInstr cmp 0; mkInstr jm 6;
       mkInstr mload 0; mkInstr inc 0]));
    ("nested cond",
     ("counter foo" +:+ nl +:+
      "/(.*)/ {" +:+ nl +:+
      "  $1 <= 1 {" +:+ nl +:+
      "    foo++" +:+ nl +:+
      "  }" +:+ nl +:+
      "}",
      [mkInstr match_ 0; mkInstr jnm 9; mkInstr push 0; mkInstr capref 1;
       mkInstr push 1; mkInstr cmp 1; mkInstr jm 9; mkInstr mload 0;
       mkInstr inc 0])) ].

(** The source and the expected bytecode of the test called [name]. *)
Definition source (name : string) : option string :=
  fst <$> (snd <$> List.find (fun t => bool_decide (fst t = name)) programs).

Definition expected (name : string) : option (list instr) :=
  snd <$> (snd <$> List.find (fun t => bool_decide (fst t = name)) programs).

(** *** Abstract syntax

    Modelled from the spec: the tree of a parsed program. The lexer and
    parser are an external front end; the code generator takes the tree
    they yield. These are the constructs of the sources of [programs]. *)

Inductive relop := LT | LE | EQ | NE | GE | GT.

Inductive expr :=
| NumLit (n : Z)
| StringLit (s : string)
| CaprefNum (n : Z)
| CaprefName (name : string).

(** A condition: a pattern, given with the names of its capture groups in
    register order (register 0 is the whole match), or a relational
    expression. *)
Inductive cond :=
| Regex (pattern : string) (groups : list string)
| Compare (lhs : expr) (o : relop) (rhs : expr).

#[warnings="-register-all"]
Inductive stmt :=
| Incr (metric : string)
| IncrBy (metric : string) (e : expr)
| Assign (metric : string) (e : expr)
| Strptime (args : list expr)
| Cond (c : cond) (body : list stmt).

(** A program: the names of the metrics it declares, and its statements. *)
Record program := mkProgram {
  decls : list string;
  stmts : list stmt
}.

(** Modelled from the spec: the state of code generation, the bytecode so
    far, the pattern table and the string table. *)
Record cstate := mkCstate {
  prog : list instr;
  re : list string;
  strs : list string
}.

Definition emit (i : instr) : M cstate unit :=
  fun s => Some (tt, mkCstate (prog s ++ [i]) (re s) (strs s)).

Definition pc : M cstate nat :=
  fun s => Some (length (prog s), s).

(** Backpatch: set the instruction at index [at_]. *)
Definition patch (at_ : nat) (i : instr) : M cstate unit :=
  fun s => Some (tt, mkCstate (<[at_ := i]> (prog s)) (re s) (strs s)).

Definition add_re (pattern : string) : M cstate nat :=
  fun s => Some (length (re s), mkCstate (prog s) (re s ++ [pattern]) (strs s)).

Definition add_str (text : string) : M cstate nat :=
  fun s => Some (length (strs s), mkCstate (prog s) (re s) (strs s ++ [text])).

Definition fail {A} : M cstate A := fun _ => None.

(** The position of [x] in [l]. *)
Fixpoint index_of (x : string) (l : list string) : option nat :=
  match l with
  | [] => None
  | y :: l' => if bool_decide (y = x) then Some 0%nat else S <$> index_of x l'
  end.

(** Modelled from the spec: the operand of [cmp] and the branch past the
    block, for each relational operator (section 4.3). *)
Definition relop_code (o : relop) : Z * opcode :=
  match o with
  | LT => (-1, jnm)
  | LE => (1, jm)
  | EQ => (0, jnm)
  | NE => (0, jm)
  | GE => (-1, jm)
  | GT => (1, jnm)
  end.

(** The pattern in scope: its index in the pattern table and its groups. *)
Definition scope := option (nat * list string).

(** Modelled from the spec: the code of an expression. A number is
    pushed; a string is added to the string table and referred to by
    index; a capture reference pushes the index of the pattern in scope
    and names the register, and fails to compile when its name is not a
    group of that pattern. *)
Definition compile_expr (sc : scope) (e : expr) : M cstate unit :=
  match e with
  | NumLit n => emit (mkInstr push n)
  | StringLit s => i <- add_str s ;; emit (mkInstr str (Z.of_nat i))
  | CaprefNum n =>
      match sc with
      | Some (ri, _) => emit (mkInstr push (Z.of_nat ri)) ;;; emit (mkInstr capref n)
      | None => fail
      end
  | CaprefName name =>
      match sc with
      | Some (ri, groups) =>
          match index_of name groups with
          | Some g => emit (mkInstr push (Z.of_nat ri)) ;;; emit (mkInstr capref (Z.of_nat g))
          | None => fail
          end
      | None => fail
      end
  end.

Fixpoint compile_exprs (sc : scope) (es : list expr) : M cstate unit :=
  match es with
  | [] => ret tt
  | e :: es' => compile_expr sc e ;;; compile_exprs sc es'
  end.

Definition mload_of (metrics : list string) (name : string) : M cstate unit :=
  match index_of name metrics with
  | Some i => emit (mkInstr mload (Z.of_nat i))
  | None => fail
  end.

(** Modelled from the spec: the code generator, whose code is not among the
    sources (only its test table [programs] is). A conditional evaluates
    its condition, then branches on false past the action block: a
    placeholder jump is emitted, its position recorded, and its operand
    patched once the block is emitted. A pattern is added to the pattern
    table and [match_] refers to it by index; a relational expression is
    [push], [push], [cmp] and a [jm] or [jnm] as in [relop_code]; declared
    metrics are referred to by position; a capture reference resolves to a
    register index, and an undefined name or an undeclared metric is a
    compile error. *)
Fixpoint sequence (cs : list (M cstate unit)) : M cstate unit :=
  match cs with
  | [] => ret tt
  | c :: cs' => c ;;; sequence cs'
  end.

Fixpoint compile_stmt (metrics : list string) (sc : scope) (s : stmt) {struct s}
  : M cstate unit :=
  match s with
  | Incr m => mload_of metrics m ;;; emit (mkInstr inc 0)
  | IncrBy m e => mload_of metrics m ;;; compile_expr sc e ;;; emit (mkInstr inc 1)
  | Assign m e => mload_of metrics m ;;; compile_expr sc e ;;; emit (mkInstr set 0)
  | Strptime args =>
      compile_exprs sc args ;;; emit (mkInstr strptime (Z.of_nat (length args)))
  | Cond (Regex pattern groups) body =>
      ri <- add_re pattern ;;
      emit (mkInstr match_ (Z.of_nat ri)) ;;;
      at_ <- pc ;;
      emit (mkInstr jnm 0) ;;;
      sequence (List.map (compile_stmt metrics (Some (ri, groups))) body) ;;;
      past <- pc ;;
      patch at_ (mkInstr jnm (Z.of_nat past))
  | Cond (Compare lhs o rhs) body =>
      compile_expr sc lhs ;;;
      compile_expr sc rhs ;;;
      emit (mkInstr cmp (fst (relop_code o))) ;;;
      at_ <- pc ;;
      emit (mkInstr (snd (relop_code o)) 0) ;;;
      sequence (List.map (compile_stmt metrics sc) body) ;;;
      past <- pc ;;
      patch at_ (mkInstr (snd (relop_code o)) (Z.of_nat past))
  end.

(** The statements of a block, compiled in turn. *)
Definition compile_block (metrics : list string) (sc : scope) (l : list stmt)
  : M cstate unit :=
  sequence (List.map (compile_stmt metrics sc) l).

(** Modelled from the spec: [Compile], on the parsed program; the
    bytecode, or a compile error. *)
Definition Compile (p : program) : option (list instr) :=
  match compile_block (decls p) None (stmts p) (mkCstate [] [] []) with
  | Some (_, s) => Some (prog s)
  | None => None
  end.

(** The bytecode of an action block compiled where the program so far is
    [before], under the pattern [sc]: what the block adds. *)
Definition block_code (metrics : list string) (sc : scope) (body : list stmt)
  (before : cstate) : option (list instr) :=
  match compile_block metrics sc body before with
  | Some (_, s) => Some (drop (length (prog before)) (prog s))
  | None => None
  end.

(** The trees of the sources of [programs], test by test. *)
Definition ts : string := "2006-01-02T15:04:05".

Definition parsed : list (string * program) :=
  [ ("simple line counter",
     mkProgram ["line_count"] [Cond (Regex "$" [""]) [Incr "line_count"]]);
    ("count a",
     mkProgram ["a_count"] [Cond (Regex "a$" [""]) [Incr "a_count"]]);
    ("strptime and capref",
     mkProgram ["foo"]
       [Cond (Regex "(.*)" [""; ""]) [Strptime [CaprefNum 1; StringLit ts]; Incr "foo"]]);
    ("strptime and named capref",
     mkProgram ["foo"]
       [Cond (Regex "(?P<date>.*)" [""; "date"])
          [Strptime [CaprefName "date"; StringLit ts]; Incr "foo"]]);
    ("inc by and set",
     mkProgram ["foo"; "bar"]
       [Cond (Regex "(.*)" [""; ""])
          [IncrBy "foo" (CaprefNum 1); Assign "bar" (CaprefNum 1)]]);
    ("cond expr gt",
     mkProgram ["foo"] [Cond (Compare (NumLit 1) GT (NumLit 0)) [Incr "foo"]]);
    ("cond expr lt",
     mkProgram ["foo"] [Cond (Compare (NumLit 1) LT (NumLit 0)) [Incr "foo"]]);
    ("cond expr eq",
     mkProgram ["foo"] [Cond (Compare (NumLit 1) EQ (NumLit 0)) [Incr "foo"]]);
    ("cond expr le",
     mkProgram ["foo"] [Cond (Compare (NumLit 1) LE (NumLit 0)) [Incr "foo"]]);
    ("cond expr ge",
     mkProgram ["foo"] [Cond (Compare (NumLit 1) GE (NumLit 0)) [Incr "foo"]]);
    ("cond expr ne",
     mkProgram ["foo"] [Cond (Compare (NumLit 1) NE (NumLit 0)) [Incr "foo"]]);
    ("nested cond",
     mkProgram ["foo"]
       [Cond (Regex "(.*)" [""; ""])
          [Cond (Compare (CaprefNum 1) LE (NumLit 1)) [Incr "foo"]]]) ].

(** The source condition [1 OP 0] guarding [foo++], and the name of its
    test in [programs]. *)
Definition one_OP_zero (o : relop) : program :=
  mkProgram ["foo"] [Cond (Compare (NumLit 1) o (NumLit 0)) [Incr "foo"]].

Definition test_name (o : relop) : string :=
  match o with
  | LT => "cond expr lt"
  | LE => "cond expr le"
  | EQ => "cond expr eq"
  | NE => "cond expr ne"
  | GE => "cond expr ge"
  | GT => "cond expr gt"
  end.

(** A step of code generation only adds instructions after those already
    there. *)
Definition appends (c : M cstate unit) : Prop :=
  forall s s', c s = Some (tt, s') -> exists code, prog s' = prog s ++ code.

(** The bytecode of the test of [o] in [programs] is what [1 OP 0]
    compiles to, and holds [cmp operand] followed by the branch [branch]. *)
Definition relational_code (o : relop) (operand : Z) (branch : opcode) : Prop :=
  exists code target,
    expected (test_name o) = Some code /\
    Compile (one_OP_zero o) = Some code /\
    code !! 2%nat = Some (mkInstr cmp operand) /\
    code !! 3%nat = Some (mkInstr branch target).

(** The tree of [counter line_count], [/$/ { line_count++ }]. *)
Definition line_counter : program :=
  mkProgram ["line_count"] [Cond (Regex "$" [""]) [Incr "line_count"]].

End Compiler.

(** ** Sample metrics and stores *)

Definition seed0 : Seed := 7%N.

(** A counter with two label tuples, and re-registrations of it: as a
    gauge, with another key list, and unchanged but fresh. *)
Definition lines_old : Metric :=
  mkMetric "lines" "log.mtail" Counter ["host"]
    [mkLabelValue ["a"] (mkDatum (IntVal 5) 100) 0;
     mkLabelValue ["b"] (mkDatum (IntVal 7) 160) 50].

Definition lines_as_gauge : Metric :=
  mkMetric "lines" "log.mtail" Gauge ["host"] [].

Definition lines_rekeyed : Metric :=
  mkMetric "lines" "log.mtail" Counter ["host"; "port"]
    [mkLabelValue ["c"; "80"] (mkDatum (IntVal 1) 170) 0].

Definition lines_fresh : Metric :=
  mkMetric "lines" "log.mtail" Counter ["host"] [].

Definition reload_heap : gmap positive Metric :=
  {[ 1%positive := lines_old; 2%positive := lines_as_gauge;
     3%positive := lines_rekeyed; 4%positive := lines_fresh ]}.

(** The store after [Add] of [lines_old], under the hash [h]. *)
Definition reload_world (h : Seed -> string -> uint64) : World :=
  mkWorld (mkStore {[ h seed0 "lineslog.mtail" := 1%positive ]} seed0) reload_heap.

(** Metrics with expiring label tuples, swept at time 200: of [errors],
    tuple [a] is past its expiry, [b] is within it, [c] is exactly at it
    and [d] has none; every tuple of [stale] is past its expiry. *)
Definition errors_metric : Metric :=
  mkMetric "errors" "log.mtail" Counter ["host"]
    [mkLabelValue ["a"] (mkDatum (IntVal 1) 100) 50;
     mkLabelValue ["b"] (mkDatum (IntVal 2) 160) 50;
     mkLabelValue ["c"] (mkDatum (IntVal 3) 150) 50;
     mkLabelValue ["d"] (mkDatum (IntVal 4) 0) 0].

Definition stale_metric : Metric :=
  mkMetric "stale" "log.mtail" Gauge ["host"]
    [mkLabelValue ["x"] (mkDatum (IntVal 9) 10) 20;
     mkLabelValue ["y"] (mkDatum (IntVal 8) 20) 30].

Definition gc_world : World :=
  mkWorld
    (mkStore {[ sample_rthash seed0 "errorslog.mtail" := 1%positive;
                sample_rthash seed0 "stalelog.mtail" := 2%positive ]} seed0)
    {[ 1%positive := errors_metric; 2%positive := stale_metric ]}.

(** A Metric that holds one label tuple twice, both past their expiry. *)
Definition twice_metric : Metric :=
  mkMetric "twice" "log.mtail" Counter ["host"]
    [mkLabelValue ["a"] (mkDatum (IntVal 1) 100) 50;
     mkLabelValue ["a"] (mkDatum (IntVal 2) 110) 50].

Definition twice_world : World :=
  mkWorld
    (mkStore {[ sample_rthash seed0 "twicelog.mtail" := 1%positive;
                sample_rthash seed0 "stalelog.mtail" := 2%positive ]} seed0)
    {[ 1%positive := twice_metric; 2%positive := stale_metric ]}.

(** A counter without label keys, built with no Keys (the nil slice), and
    its re-registration with Keys made empty: an empty slice that is not
    nil. Neither has a label key. *)
Definition hits_old : Metric :=
  mkMetric "hits" "log.mtail" Counter nil_slice
    [mkLabelValue [] (mkDatum (IntVal 5) 100) 0].

Definition hits_fresh : Metric :=
  mkMetric "hits" "log.mtail" Counter (make_slice []) [].

Definition hits_heap : gmap positive Metric :=
  {[ 1%positive := hits_old; 2%positive := hits_fresh ]}.

(** A label tuple written at the earliest instant a Datum can hold, with
    the largest expiry, in a store swept at an instant of the year 2023. *)
Definition forever_lv : LabelValue :=
  mkLabelValue ["a"] (mkDatum (IntVal 1) (-9223372036854775808)) maxDuration.

Definition forever_metric : Metric :=
  mkMetric "forever" "log.mtail" Counter ["host"] [forever_lv].

Definition forever_world : World :=
  mkWorld (mkStore {[ sample_rthash seed0 "foreverlog.mtail" := 1%positive ]} seed0)
          {[ 1%positive := forever_metric ]}.

(** A callback that fails on the Metric at address 1. *)
Definition fails_on_1 (p : ptr) : M World (option error) :=
  fun w => Some (if decide (p = 1%positive) then Some (ErrOther "stop") else None, w).

(** A callback that deletes the entry of [stale_metric] from the store. *)
Definition drops_stale (p : ptr) : M World (option error) :=
  fun w => Some (None, set_Metrics w (delete (sample_rthash seed0 "stalelog.mtail")
                                             (Metrics (store w)))).

(** Two identities with one concatenation of name and program. *)
Definition ab_c : Metric := mkMetric "ab" "c" Counter nil_slice [].

(** The LabelValues of the new Metric after the loop of [Add] over the
    LabelValues [old] of another Metric, with the Metric methods of the
    specification: a tuple the new Metric holds is replaced by the old
    tuple's Datum, without expiry, at the end of the list; a tuple it does
    not hold is skipped. *)
Fixpoint copied (old cur : list LabelValue) : list LabelValue :=
  match old with
  | [] => cur
  | o :: rest =>
      copied rest
        (if decide (Labels o ∈ Labels <$> cur)
         then filter (fun x => Labels x <> Labels o) cur ++
              [mkLabelValue (Labels o) (Value o) 0]
         else cur)
  end.

(** The LabelValues of the new Metric after the loop of [Add] over [old],
    were [RemoveDatum] to accept a tuple the Metric does not hold: every
    old tuple ends in the list with its old Datum. *)
Fixpoint moved (old cur : list LabelValue) : list LabelValue :=
  match old with
  | [] => cur
  | o :: rest =>
      moved rest
        (filter (fun x => Labels x <> Labels o) cur ++
         [mkLabelValue (Labels o) (Value o) 0])
  end.

(** A LabelValue as the loop of [Add] appends it: the tuple and the Datum,
    and no expiry. *)
Definition without_expiry (lv : LabelValue) : LabelValue :=
  mkLabelValue (Labels lv) (Value lv) 0.

(** A re-registration of [lines_old] that comes with the tuple [a] and
    with a tuple of its own, both with an expiry. *)
Definition lines_partial : Metric :=
  mkMetric "lines" "log.mtail" Counter ["host"]
    [mkLabelValue ["a"] (mkDatum (IntVal 0) 180) 30;
     mkLabelValue ["c"] (mkDatum (IntVal 3) 190) 40].

Definition partial_world : World :=
  mkWorld (store (reload_world sample_rthash))
          (<[5%positive := lines_partial]> reload_heap).

(** The store after [NewStore] and [Add] of [ab_c]. *)
Definition ab_world : World :=
  mkWorld (mkStore {[ sample_rthash seed0 "abc" := 1%positive ]} seed0)
          {[ 1%positive := ab_c ]}.

(** A marshaller to run [MarshalJSON] with: it writes the names of the
    Metrics, and fails on a pointer to no Metric. *)
Definition sample_Marshal (h : gmap positive Metric) (ms : list positive) : result string :=
  match mapM (fun p => Name <$> h !! p) ms with
  | Some names => Ok (foldr (fun n out => n +:+ ";" +:+ out) "" names)
  | None => Err (ErrOther "nil")
  end.

(** The stores a program can reach: a new store, then calls of [Add] (of
    any Metric object, whatever they return) and writes to the heap. The
    list holds the name and program of every Metric passed to [Add]. *)
Inductive reached {ops : MetricOps} (rthash : Seed -> string -> uint64)
  : World -> list (string * string) -> Prop :=
| reached_new seed h : reached rthash (mkWorld (NewStore seed) h) []
| reached_Add w ids m mv r w' :
    reached rthash w ids ->
    heap w !! m = Some mv ->
    Add rthash m w = Some (r, w') ->
    reached rthash w' ((Name mv, Program mv) :: ids)
| reached_write w ids h :
    reached rthash w ids ->
    reached rthash (set_heap w h) ids.

(** Cases on an entry of a store written as a literal map. *)
Ltac stored_cases H :=
  repeat first
    [ apply lookup_insert_Some in H as [[? ?]|[? H]]; [subst|]
    | apply lookup_singleton_Some in H as [? ?]; subst
    | rewrite lookup_empty in H; discriminate H ].

(** * Properties of the store *)

(** ** [time.Time.Sub] *)

(** The three cases of [Sub]. *)
Lemma Sub_cases (t u : Z) :
  (t - u > maxDuration /\ Sub t u = maxDuration) \/
  (t - u < minDuration /\ Sub t u = minDuration) \/
  (minDuration <= t - u <= maxDuration /\ Sub t u = t - u).
Proof.
  unfold Sub.
  destruct (t - u >? maxDuration) eqn:E1; [left; lia|].
  destruct (t - u <? minDuration) eqn:E2; [right; left; lia|right; right; lia].
Qed.

(** What [Sub] is above: for a duration [d] below the largest one, the
    difference is. *)
Lemma Sub_above (t u d : Z) :
  minDuration <= d < maxDuration -> (Sub t u > d <-> t - u > d).
Proof.
  intros Hd. destruct (Sub_cases t u) as [[? E]|[[? E]|[? E]]]; rewrite E;
    unfold minDuration, maxDuration in *; lia.
Qed.

Lemma Sub_le_maxDuration (t u : Z) : Sub t u <= maxDuration.
Proof.
  destruct (Sub_cases t u) as [[? E]|[[? E]|[? E]]]; rewrite E;
    unfold minDuration, maxDuration in *; lia.
Qed.

(** [Sub] grows with the later instant. *)
Lemma Sub_mono (t1 t2 u : Z) : t1 <= t2 -> Sub t1 u <= Sub t2 u.
Proof.
  intros Hle.
  destruct (Sub_cases t1 u) as [[? E1]|[[? E1]|[? E1]]];
    destruct (Sub_cases t2 u) as [[? E2]|[[? E2]|[? E2]]];
    rewrite E1, E2; unfold minDuration, maxDuration in *; lia.
Qed.

Section StoreFacts.

Context {ops : MetricOps}.
Variable rthash : Seed -> string -> uint64.
Variable visit : gmap N positive -> list (N * positive).

Lemma bind_Some {S A B} (x : M S A) (f : A -> M S B) s a s1 :
  x s = Some (a, s1) -> bind x f s = f a s1.
Proof. intros H. unfold bind. rewrite H. reflexivity. Qed.

Lemma bind_inv {S A B} (x : M S A) (f : A -> M S B) s b s2 :
  bind x f s = Some (b, s2) ->
  exists a s1, x s = Some (a, s1) /\ f a s1 = Some (b, s2).
Proof.
  unfold bind. destruct (x s) as [[a s1]|] eqn:E; [|discriminate].
  intros H. exists a, s1. split; [reflexivity | exact H].
Qed.

Lemma bind_assoc {S A B C} (x : M S A) (f : A -> M S B) (g : B -> M S C) s :
  bind (bind x f) g s = bind x (fun a => bind (f a) g) s.
Proof. unfold bind. destruct (x s) as [[a s1]|]; reflexivity. Qed.

Lemma get_store_Some w : get_store w = Some (store w, w).
Proof. reflexivity. Qed.

Lemma deref_Some p m w : heap w !! p = Some m -> deref p w = Some (m, w).
Proof. intros H. unfold deref. rewrite H. reflexivity. Qed.

Lemma assign_Some p m m' w :
  heap w !! p = Some m -> assign p m' w = Some (tt, set_heap w (<[p := m']> (heap w))).
Proof. intros H. unfold assign. rewrite H. reflexivity. Qed.

Lemma LoadOrStore_absent k p w :
  Metrics (store w) !! k = None ->
  Map_LoadOrStore k p w = Some ((p, false), set_Metrics w (<[k := p]> (Metrics (store w)))).
Proof. intros H. unfold Map_LoadOrStore. rewrite H. reflexivity. Qed.

Lemma LoadOrStore_present k p v w :
  Metrics (store w) !! k = Some v ->
  Map_LoadOrStore k p w = Some ((v, true), w).
Proof. intros H. unfold Map_LoadOrStore. rewrite H. reflexivity. Qed.

(** *** [Add] *)

(** On an absent key [Add] stores [m] and returns nil. *)
Lemma Add_absent m mv w :
  heap w !! m = Some mv ->
  Metrics (store w) !! hashMetric rthash (store w) (Name mv) (Program mv) = None ->
  Add rthash m w =
    Some (None, set_Metrics w (<[hashMetric rthash (store w) (Name mv) (Program mv) := m]>
                                 (Metrics (store w)))).
Proof.
  intros Hm Hk. unfold Add.
  rewrite (bind_Some _ _ _ _ _ (deref_Some _ _ _ Hm)).
  rewrite (bind_Some _ _ _ _ _ (get_store_Some _)). cbv beta zeta.
  rewrite (bind_Some _ _ _ _ _ (LoadOrStore_absent _ _ _ Hk)). reflexivity.
Qed.

(** [FindMetricOrNil] is the lookup of the hash key. *)
Lemma FindMetricOrNil_lookup name prog w :
  FindMetricOrNil rthash name prog w =
    Some (Metrics (store w) !! hashMetric rthash (store w) name prog, w).
Proof.
  unfold FindMetricOrNil, bind, get_store, Map_Load, ret.
  destruct (Metrics (store w) !! _); reflexivity.
Qed.

(** Round trip: after [Add] on an absent key, [FindMetricOrNil] of the
    metric's name and program returns it. *)
Lemma Add_absent_then_Find m mv w :
  heap w !! m = Some mv ->
  Metrics (store w) !! hashMetric rthash (store w) (Name mv) (Program mv) = None ->
  exists w', Add rthash m w = Some (None, w') /\
             FindMetricOrNil rthash (Name mv) (Program mv) w' = Some (Some m, w').
Proof.
  intros Hm Hk. eexists. split; [apply (Add_absent _ _ _ Hm Hk)|].
  rewrite FindMetricOrNil_lookup. simpl. unfold hashMetric. simpl.
  rewrite lookup_insert_eq. reflexivity.
Qed.

(** The key of a metric is the hash of its name followed by its program:
    two identities with the same concatenation share a key, whatever the
    hash function. *)
Lemma hashMetric_concat s name prog :
  hashMetric rthash s name prog = rthash (hashSeed s) (name +:+ prog).
Proof. reflexivity. Qed.

(** C2. When the key of [m] is present and the stored metric [v] has a
    different Kind, [Add m] returns a non-nil error and changes nothing:
    the key still maps to [v], and [v] is as it was. *)
Theorem Add_different_Kind_fails m mv v vv w :
  heap w !! m = Some mv ->
  Metrics (store w) !! hashMetric rthash (store w) (Name mv) (Program mv) = Some v ->
  heap w !! v = Some vv ->
  MKind mv <> MKind vv ->
  exists e w', Add rthash m w = Some (Some e, w') /\
    w' = w /\
    Metrics (store w') !! hashMetric rthash (store w) (Name mv) (Program mv) = Some v /\
    heap w' !! v = Some vv.
Proof.
  intros Hm Hk Hv Hkind.
  exists (ErrDifferentKind (Name mv) (MKind mv) (MKind vv)), w.
  split; [|auto].
  unfold Add.
  rewrite (bind_Some _ _ _ _ _ (deref_Some _ _ _ Hm)).
  rewrite (bind_Some _ _ _ _ _ (get_store_Some _)). cbv beta zeta.
  rewrite (bind_Some _ _ _ _ _ (LoadOrStore_present _ _ _ _ Hk)). cbv beta iota zeta delta [negb].
  rewrite (bind_Some _ _ _ _ _ (deref_Some _ _ _ Hm)).
  rewrite (bind_Some _ _ _ _ _ (deref_Some _ _ _ Hv)).
  rewrite bool_decide_eq_false_2 by exact Hkind. reflexivity.
Qed.

(** C8. When the key of [m] is present, the stored metric [v] has the Kind
    of [m] and other Keys, [Add m] returns nil and makes the key map to
    [m]; no object changes, so [m] holds the LabelValues it came with and
    none of [v], and [v] is another object than [m]. *)
Theorem Add_changed_Keys_discards m mv v vv w :
  heap w !! m = Some mv ->
  Metrics (store w) !! hashMetric rthash (store w) (Name mv) (Program mv) = Some v ->
  heap w !! v = Some vv ->
  MKind mv = MKind vv ->
  Keys mv <> Keys vv ->
  exists w', Add rthash m w = Some (None, w') /\
    Metrics (store w') =
      <[hashMetric rthash (store w) (Name mv) (Program mv) := m]> (Metrics (store w)) /\
    heap w' = heap w /\
    heap w' !! m = Some mv /\
    m <> v.
Proof.
  intros Hm Hk Hv Hkind Hkeys.
  eexists. split.
  - unfold Add.
    rewrite (bind_Some _ _ _ _ _ (deref_Some _ _ _ Hm)).
  rewrite (bind_Some _ _ _ _ _ (get_store_Some _)). cbv beta zeta.
    rewrite (bind_Some _ _ _ _ _ (LoadOrStore_present _ _ _ _ Hk)). cbv beta iota zeta delta [negb].
    rewrite (bind_Some _ _ _ _ _ (deref_Some _ _ _ Hm)).
    rewrite (bind_Some _ _ _ _ _ (deref_Some _ _ _ Hv)).
    rewrite bool_decide_eq_true_2 by exact Hkind. simpl.
    unfold DeepEqual. rewrite (bool_decide_eq_false_2 (Keys vv = Keys mv)) by congruence.
    rewrite andb_false_r. reflexivity.
  - simpl. repeat split; auto. intros ->. congruence.
Qed.

(** On a present key with the same Kind and the same Keys, [Add] runs the
    copy loop over the LabelValues of the stored metric, then stores [m]. *)
Lemma Add_same_Keys m mv v vv w w1 :
  heap w !! m = Some mv ->
  Metrics (store w) !! hashMetric rthash (store w) (Name mv) (Program mv) = Some v ->
  heap w !! v = Some vv ->
  MKind mv = MKind vv ->
  Keys mv = Keys vv ->
  Add_copy v m (LabelValues vv) w = Some (tt, w1) ->
  Add rthash m w =
    Some (None, set_Metrics w1 (<[hashMetric rthash (store w) (Name mv) (Program mv) := m]>
                                  (Metrics (store w1)))).
Proof.
  intros Hm Hk Hv Hkind Hkeys Hcopy. unfold Add.
  rewrite (bind_Some _ _ _ _ _ (deref_Some _ _ _ Hm)).
  rewrite (bind_Some _ _ _ _ _ (get_store_Some _)). cbv beta zeta.
  rewrite (bind_Some _ _ _ _ _ (LoadOrStore_present _ _ _ _ Hk)). cbv beta iota zeta delta [negb].
  rewrite (bind_Some _ _ _ _ _ (deref_Some _ _ _ Hm)).
  rewrite (bind_Some _ _ _ _ _ (deref_Some _ _ _ Hv)).
  rewrite bool_decide_eq_true_2 by exact Hkind. simpl.
  unfold DeepEqual. rewrite (bool_decide_eq_true_2 (Keys vv = Keys mv)) by congruence.
  rewrite Hkeys, Nat.eqb_refl. simpl.
  rewrite (bind_Some _ _ _ _ _ Hcopy). reflexivity.
Qed.

(** [Add] on a key that maps to a Metric of the same Kind and other Keys:
    the loop is skipped. *)
Lemma Add_other_Keys m mv v vv w :
  heap w !! m = Some mv ->
  Metrics (store w) !! hashMetric rthash (store w) (Name mv) (Program mv) = Some v ->
  heap w !! v = Some vv ->
  MKind mv = MKind vv ->
  DeepEqual (Keys vv) (Keys mv) = false ->
  Add rthash m w =
    Some (None, set_Metrics w (<[hashMetric rthash (store w) (Name mv) (Program mv) := m]>
                                 (Metrics (store w)))).
Proof.
  intros Hm Hk Hv Hkind Hkeys. unfold Add.
  rewrite (bind_Some _ _ _ _ _ (deref_Some _ _ _ Hm)).
  rewrite (bind_Some _ _ _ _ _ (get_store_Some _)). cbv beta zeta.
  rewrite (bind_Some _ _ _ _ _ (LoadOrStore_present _ _ _ _ Hk)).
  cbv beta iota zeta delta [negb].
  rewrite (bind_Some _ _ _ _ _ (deref_Some _ _ _ Hm)).
  rewrite (bind_Some _ _ _ _ _ (deref_Some _ _ _ Hv)).
  rewrite bool_decide_eq_true_2 by exact Hkind. cbv beta iota.
  rewrite Hkeys, andb_false_r. reflexivity.
Qed.

(** C1, on the code: a store holds the counter [hits_old], which has no
    label key, its Keys being the nil slice, and whose LabelValue carries
    the value 5. [Add] of [hits_fresh], the same metric in name, program
    and Kind, with no label key either, its Keys being an empty slice
    that is not nil, returns nil and replaces the entry, and no object
    changes: the new Metric holds no LabelValue, so the Datum of the old
    one was not migrated. The two Keys have the same length and the same
    elements, but [reflect.DeepEqual] tells a nil slice from an empty
    one, and the loop of [Add] is skipped. No Metric method is called:
    this holds whatever [GetDatum] and [RemoveDatum] do, for every hash
    function and seed. *)
Theorem Add_nil_and_empty_Keys_loses_Datum (seed : Seed) :
  exists w1 w2,
    Add rthash 1%positive (mkWorld (NewStore seed) hits_heap) = Some (None, w1) /\
    FindMetricOrNil rthash "hits" "log.mtail" w1 = Some (Some 1%positive, w1) /\
    Add rthash 2%positive w1 = Some (None, w2) /\
    FindMetricOrNil rthash "hits" "log.mtail" w2 = Some (Some 2%positive, w2) /\
    heap w2 = hits_heap /\
    (LabelValues <$> heap w2 !! 1%positive) =
      Some [mkLabelValue [] (mkDatum (IntVal 5) 100) 0] /\
    (LabelValues <$> heap w2 !! 2%positive) = Some [] /\
    len (Keys hits_old) = len (Keys hits_fresh) /\
    MKind hits_old = MKind hits_fresh.
Proof.
  eexists _, _. split; [|split; [|split; [|split]]].
  - apply (Add_absent 1%positive hits_old); [reflexivity|]. simpl. apply lookup_empty.
  - rewrite FindMetricOrNil_lookup, hashMetric_concat. simpl.
    change ("hits" +:+ "log.mtail") with "hitslog.mtail".
    rewrite hashMetric_concat. simpl.
    change ("hits" +:+ "log.mtail") with "hitslog.mtail".
    rewrite lookup_insert_eq. reflexivity.
  - apply (Add_other_Keys 2%positive hits_fresh 1%positive hits_old);
      [reflexivity| |reflexivity|reflexivity|reflexivity].
    simpl. apply lookup_insert_eq.
  - rewrite FindMetricOrNil_lookup. simpl. rewrite !hashMetric_concat. simpl.
    change ("hits" +:+ "log.mtail") with "hitslog.mtail".
    rewrite lookup_insert_eq. reflexivity.
  - simpl. repeat split; reflexivity.
Qed.

(** C9, on the code: in a new store, after [Add] of the metric named [ab]
    of program [c], [FindMetricOrNil] returns it for its own name and
    program, and also for the name [a] and the program [bc], which were
    never added: both identities hash the same bytes. This holds for
    every hash function and seed. *)
Theorem FindMetricOrNil_finds_other_identity (seed : Seed) :
  exists w1,
    Add rthash 1%positive (mkWorld (NewStore seed) {[ 1%positive := ab_c ]}) = Some (None, w1) /\
    FindMetricOrNil rthash "ab" "c" w1 = Some (Some 1%positive, w1) /\
    FindMetricOrNil rthash "a" "bc" w1 = Some (Some 1%positive, w1).
Proof.
  eexists. split.
  - apply (Add_absent 1%positive ab_c); [reflexivity|]. simpl. apply lookup_empty.
  - rewrite !FindMetricOrNil_lookup, !hashMetric_concat. simpl.
    change ("ab" +:+ "c") with "abc". change ("a" +:+ "bc") with "abc".
    rewrite lookup_insert_eq. split; reflexivity.
Qed.

(** *** [Range] *)

(** [Range] is the loop over the entries in the order of [sync.Map.Range]. *)
(** For an entry of the map in which the call began, [Range] passes the
    mapping that the key has at its turn. *)
Lemma Map_entry_live began mp key value :
  began !! key = Some value -> Map_entry began mp key value = mp !! key.
Proof.
  intros Hb. unfold Map_entry.
  destruct (decide (mp !! key = began !! key)) as [E|]; [|reflexivity].
  rewrite E, Hb. reflexivity.
Qed.

(** [Range] passes to [f] only Metrics that the store holds at that
    moment. *)
Lemma Map_Range_on_stored {S} (view : S -> World) (f : ptr -> M S (option error))
    began es :
  (forall k p, (k, p) ∈ es -> began !! k = Some p) ->
  forall sr,
    Map_Range (fun sr => Metrics (store (view (fst sr)))) began
              (Range_body (on_stored view f)) es sr =
    Map_Range (fun sr => Metrics (store (view (fst sr)))) began (Range_body f) es sr.
Proof.
  induction es as [|[k p] es IH]; intros Hes sr; [reflexivity|].
  assert (IH' := IH (fun k' p' Hin => Hes k' p' (list_elem_of_further _ _ _ Hin))).
  cbn [Map_Range].
  rewrite (Map_entry_live began _ k p (Hes k p (list_elem_of_here _ _))).
  destruct (Metrics (store (view (fst sr))) !! k) as [v|] eqn:Hv; [|apply IH'].
  assert (Hbody : Range_body (on_stored view f) k v sr = Range_body f k v sr).
  { unfold Range_body, on_stored. rewrite decide_True; [reflexivity|].
    apply list_elem_of_fmap. exists (k, v). split; [reflexivity|].
    apply elem_of_map_to_list, Hv. }
  unfold bind. rewrite Hbody.
  destruct (Range_body f k v sr) as [[[] sr']|]; [apply IH'|reflexivity|reflexivity].
Qed.

(** With a callback that leaves the map of the store as it is, the entries
    are passed as [Range] met them. *)
Lemma Range_as_loop {S} (view : S -> World) (f : ptr -> M S (option error)) s :
  (forall p s0 r s1, f p s0 = Some (r, s1) ->
     Metrics (store (view s1)) = Metrics (store (view s0))) ->
  Range visit view f s = Range_loop f (visit (Metrics (store (view s)))) s.
Proof.
  intros Hkeep. unfold Range. cbv zeta.
  set (began := Metrics (store (view s))).
  assert (Hcur : Metrics (store (view s)) = began) by reflexivity.
  clearbody began. generalize (visit began). intros es.
  revert s Hcur. induction es as [|[k p] es IH]; intros s Hcur; [reflexivity|].
  cbn [Map_Range Range_loop]. unfold Map_entry. cbn [fst].
  rewrite decide_True by (rewrite Hcur; reflexivity).
  unfold bind, Range_body. cbn [fst snd].
  destruct (f p s) as [[[e|] s1]|] eqn:Hf; [reflexivity| |reflexivity].
  apply IH. rewrite (Hkeep _ _ _ _ Hf). exact Hcur.
Qed.

Lemma Range_body_Some {S} (f : ptr -> M S (option error)) k v s r0 r s1 :
  f v s = Some (r, s1) ->
  Range_body f k v (s, r0) =
    Some (match r with
          | Some e => (false, (s1, Some e))
          | None => (true, (s1, r0))
          end).
Proof. unfold Range_body. cbn [fst snd]. intros ->. destruct r; reflexivity. Qed.

Lemma Range_body_None {S} (f : ptr -> M S (option error)) k v s r0 :
  f v s = None -> Range_body f k v (s, r0) = None.
Proof. unfold Range_body. cbn [fst snd]. intros ->. reflexivity. Qed.

Lemma logged_Some {S} (f : ptr -> M S (option error)) v s l r s1 :
  f v s = Some (r, s1) -> logged f v (s, l) = Some (r, (s1, l ++ [v])).
Proof. unfold logged. cbn [fst snd]. intros ->. reflexivity. Qed.

Lemma logged_None {S} (f : ptr -> M S (option error)) v s l :
  f v s = None -> logged f v (s, l) = None.
Proof. unfold logged. cbn [fst snd]. intros ->. reflexivity. Qed.

(** The run of [Range] with a log of the Metrics passed to [f]: it returns
    what the run without the log returns, and the log shows the calls. *)
Lemma Map_Range_logged {S} (f : ptr -> M S (option error))
    (cur : S * option error -> gmap N positive)
    (cur' : S * list ptr * option error -> gmap N positive) began es :
  (forall s l r, cur' (s, l, r) = cur (s, r)) ->
  forall s l,
  match Map_Range cur began (Range_body f) es (s, None) with
  | Some (_, (s', r)) =>
      exists ps,
        Map_Range cur' began (Range_body (logged f)) es ((s, l), None) =
          Some (tt, ((s', l ++ ps), r)) /\
        calls_until_error f ps s s' r
  | None =>
      Map_Range cur' began (Range_body (logged f)) es ((s, l), None) = None
  end.
Proof.
  intros Hcur. induction es as [|[k p] es IH]; intros s l.
  - simpl. exists []. rewrite app_nil_r. split; [reflexivity|constructor].
  - cbn [Map_Range]. rewrite Hcur.
    destruct (Map_entry began (cur (s, None)) k p) as [v|]; [|apply IH].
    unfold bind.
    destruct (f v s) as [[[e|] s1]|] eqn:Hf.
    + rewrite (Range_body_Some f k v s None _ _ Hf).
      rewrite (Range_body_Some (logged f) k v (s, l) None _ _ (logged_Some f v s l _ _ Hf)).
      exists [v]. split; [reflexivity|].
      exists [], v, s. split; [reflexivity|]. split; [constructor|exact Hf].
    + rewrite (Range_body_Some f k v s None _ _ Hf).
      rewrite (Range_body_Some (logged f) k v (s, l) None _ _ (logged_Some f v s l _ _ Hf)).
      specialize (IH s1 (l ++ [v])).
      destruct (Map_Range cur began (Range_body f) es (s1, None)) as [[u [s' r]]|];
        [|exact IH].
      destruct IH as (ps & Hrun & Hps). exists (v :: ps). split.
      * rewrite Hrun, <- app_assoc. reflexivity.
      * destruct r as [e|].
        -- destruct Hps as (pre & q & s2 & -> & Hpre & Hq).
           exists (v :: pre), q, s2. split; [reflexivity|].
           split; [eapply calls_nil_step; eauto|exact Hq].
        -- eapply calls_nil_step; eauto.
    + rewrite (Range_body_None f k v s None Hf).
      rewrite (Range_body_None (logged f) k v (s, l) None (logged_None f v s l Hf)).
      reflexivity.
Qed.

(** [Range] returns whenever the callback does. *)
Lemma Map_Range_returns {S} (view : S -> World) (f : ptr -> M S (option error))
    began es :
  (forall p s0, is_Some (f p s0)) ->
  forall sr, is_Some (Map_Range (fun sr => Metrics (store (view (fst sr)))) began
                                (Range_body f) es sr).
Proof.
  intros Hf. induction es as [|[k p] es IH]; intros sr; [eexists; reflexivity|].
  cbn [Map_Range].
  destruct (Map_entry began _ k p) as [v|]; [|apply IH].
  unfold bind, Range_body.
  destruct (Hf v (fst sr)) as [[[e|] s1] ->]; [eexists; reflexivity|apply IH].
Qed.

(** The log of a loop over entries passed as they were met. *)
Lemma Range_loop_logged_prefix {S} (f : ptr -> M S (option error)) es :
  forall s l r s' log,
    Range_loop (logged f) es (s, l) = Some (r, (s', log)) ->
    exists ps, log = l ++ ps /\ ps `prefix_of` es.*2 /\ (r = None -> ps = es.*2).
Proof.
  induction es as [|[k p] es IH]; intros s l r s' log H.
  - simpl in H. unfold ret in H. injection H as <- <- <-.
    exists []. rewrite app_nil_r. split; [reflexivity|]. split; [reflexivity|auto].
  - cbn [Range_loop] in H. apply bind_inv in H as (err & [s1 l1] & Hp & H).
    unfold logged in Hp. cbn [fst snd] in Hp.
    destruct (f p s) as [[r1 s2]|]; [|discriminate].
    injection Hp as <- <- <-. rewrite fmap_cons. cbn [snd].
    destruct r1 as [e|].
    + unfold ret in H. injection H as <- <- <-.
      exists [p]. split; [reflexivity|]. split; [|discriminate].
      exists (es.*2). reflexivity.
    + apply IH in H as (ps & -> & Hpre & Hall).
      exists (p :: ps). split; [rewrite <- app_assoc; reflexivity|]. split.
      * apply prefix_cons, Hpre.
      * intros Hr. rewrite (Hall Hr). reflexivity.
Qed.

Lemma Range_loop_skip {S} (f : ptr -> M S (option error)) es es' s s1 :
  calls_nil f es.*2 s s1 ->
  Range_loop f (es ++ es') s = Range_loop f es' s1.
Proof.
  revert s. induction es as [|[k p] es IH]; intros s H; simpl in *.
  - inversion H. reflexivity.
  - inversion H as [|? ? ? s0 ? Hf Hrest]; subst.
    rewrite (bind_Some _ _ _ _ _ Hf). apply IH, Hrest.
Qed.

Lemma Range_loop_first_error {S} (f : ptr -> M S (option error)) pre k p post s s1 s2 e :
  calls_nil f pre.*2 s s1 ->
  f p s1 = Some (Some e, s2) ->
  Range_loop f (pre ++ (k, p) :: post) s = Some (Some e, s2).
Proof.
  intros H Hf. rewrite (Range_loop_skip _ _ _ _ _ H). simpl.
  rewrite (bind_Some _ _ _ _ _ Hf). reflexivity.
Qed.

(** *** [Gc] *)

Lemma frame_at_refl p w : frame_at p w w.
Proof. unfold frame_at. auto. Qed.

Lemma frame_at_trans p w1 w2 w3 :
  frame_at p w1 w2 -> frame_at p w2 w3 -> frame_at p w1 w3.
Proof.
  intros (Hs1 & Hd1 & Hh1) (Hs2 & Hd2 & Hh2). unfold frame_at.
  split; [congruence|]. split; [congruence|].
  intros q Hq. rewrite Hh2, Hh1; auto.
Qed.

Lemma assign_frame p m w w' :
  assign p m w = Some (tt, w') -> frame_at p w w'.
Proof.
  unfold assign. destruct (heap w !! p) as [m0|] eqn:E; [|discriminate].
  intros H. simplify_eq. unfold frame_at. simpl. split; [reflexivity|]. split.
  - rewrite dom_insert_L. apply elem_of_dom_2 in E.
    apply set_eq. intros q. rewrite elem_of_union, elem_of_singleton.
    split; [intros [->|?]; assumption | auto].
  - intros q Hq. apply lookup_insert_ne. congruence.
Qed.

Lemma Metric_RemoveDatum_frame p labels w r w' :
  Metric_RemoveDatum p labels w = Some (r, w') -> frame_at p w w'.
Proof.
  unfold Metric_RemoveDatum. intros H.
  apply bind_inv in H as (m & w1 & Hd & H).
  unfold deref in Hd. destruct (heap w !! p); simplify_eq.
  destruct (RemoveDatum m labels) as [m' r'].
  apply bind_inv in H as ([] & w2 & Ha & H).
  unfold ret in H. simplify_eq. eapply assign_frame, Ha.
Qed.

Lemma Metric_RemoveDatum_returns p labels m w :
  heap w !! p = Some m ->
  Metric_RemoveDatum p labels w =
    Some (snd (RemoveDatum m labels),
          set_heap w (<[p := fst (RemoveDatum m labels)]> (heap w))).
Proof.
  intros H. unfold Metric_RemoveDatum.
  rewrite (bind_Some _ _ _ _ _ (deref_Some _ _ _ H)).
  destruct (RemoveDatum m labels) as [m' r]. simpl.
  rewrite (bind_Some _ _ _ _ _ (assign_Some _ _ _ _ H)). reflexivity.
Qed.

Lemma Gc_loop_frame now p lvs w r w' :
  Gc_loop now p lvs w = Some (r, w') -> frame_at p w w'.
Proof.
  revert w. induction lvs as [|lv lvs IH]; intros w H; simpl in H.
  - unfold ret in H. simplify_eq. apply frame_at_refl.
  - destruct (Expiry lv <=? 0); [eauto|].
    destruct (Sub now (TimeUTC (Value lv)) >? Expiry lv); [|eauto].
    apply bind_inv in H as (err & w1 & Hr & H).
    apply Metric_RemoveDatum_frame in Hr.
    destruct err as [e|].
    + unfold ret in H. simplify_eq. exact Hr.
    + eapply frame_at_trans; eauto.
Qed.

Lemma Gc_metric_frame now p w r w' :
  Gc_metric now p w = Some (r, w') -> frame_at p w w'.
Proof.
  unfold Gc_metric. intros H. apply bind_inv in H as (m & w1 & Hd & H).
  unfold deref in Hd. destruct (heap w !! p); simplify_eq.
  eapply Gc_loop_frame, H.
Qed.

(** [Gc] as one loop: its callback leaves the map of the store as it is. *)
Lemma Gc_as_loop now w :
  Gc visit now w = Range_loop (Gc_metric now) (visit (Metrics (store w))) w.
Proof.
  unfold Gc. apply (Range_as_loop id).
  intros p s0 r s1 H. apply Gc_metric_frame in H as (Hs & _). simpl. rewrite Hs.
  reflexivity.
Qed.

(** The sweep of one Metric returns whenever the Metric exists. *)
Lemma Gc_loop_returns now p lvs w :
  is_Some (heap w !! p) ->
  exists r w', Gc_loop now p lvs w = Some (r, w').
Proof.
  revert w. induction lvs as [|lv lvs IH]; intros w [m Hm]; simpl.
  - eauto.
  - destruct (Expiry lv <=? 0); [eauto|].
    destruct (Sub now (TimeUTC (Value lv)) >? Expiry lv); [|eauto].
    rewrite (bind_Some _ _ _ _ _ (Metric_RemoveDatum_returns _ _ _ _ Hm)).
    destruct (snd (RemoveDatum m (Labels lv))); [eauto|].
    apply IH. simpl. rewrite lookup_insert_eq. eauto.
Qed.

Lemma Gc_metric_returns now p w :
  is_Some (heap w !! p) ->
  exists r w', Gc_metric now p w = Some (r, w').
Proof.
  intros [m Hm]. unfold Gc_metric.
  rewrite (bind_Some _ _ _ _ _ (deref_Some _ _ _ Hm)).
  apply Gc_loop_returns. eauto.
Qed.

(** What a run of the sweep over the entries [es] keeps: the store, and
    the set of objects. *)
Lemma Gc_Range_loop_keeps now es w :
  (forall k p, (k, p) ∈ es -> is_Some (heap w !! p)) ->
  exists r w', Range_loop (Gc_metric now) es w = Some (r, w') /\
    store w' = store w /\ dom (heap w') = dom (heap w).
Proof.
  revert w. induction es as [|[k p] es IH]; intros w Hok; simpl.
  - eauto.
  - destruct (Gc_metric_returns now p w) as (r & w1 & Hr).
    { apply (Hok k). left. }
    rewrite (bind_Some _ _ _ _ _ Hr).
    apply Gc_metric_frame in Hr as (Hs & Hd & _).
    destruct r as [e|]; [eauto|].
    destruct (IH w1) as (r & w' & H & Hs' & Hd').
    { intros k' p' Hin. apply elem_of_dom. rewrite Hd. apply elem_of_dom.
      apply (Hok k'). right. exact Hin. }
    exists r, w'. split; [exact H|]. split; congruence.
Qed.

(** C10. When, in the sweep of the Metric [p], [RemoveDatum] fails for an
    expired label tuple, [Gc] returns that error in the state that call
    left: the Metrics that come after [p] in the iteration and were not
    visited before are as they were when [Gc] began. *)
Theorem Gc_stops_at_RemoveDatum_error now w pre k p post w1 mv l1 lv l2 wa wb e :
  visit (Metrics (store w)) = pre ++ (k, p) :: post ->
  calls_nil (Gc_metric now) pre.*2 w w1 ->
  heap w1 !! p = Some mv ->
  LabelValues mv = l1 ++ lv :: l2 ->
  Gc_loop now p l1 w1 = Some (None, wa) ->
  expired now lv = true ->
  Metric_RemoveDatum p (Labels lv) wa = Some (Some e, wb) ->
  Gc visit now w = Some (Some e, wb) /\
  forall q, q ∈ post.*2 -> q ∉ pre.*2 -> q <> p -> heap wb !! q = heap w !! q.
Proof.
  intros Hv Hpre Hp Hlvs Hl1 Hexp Hrm.
  assert (Hloop : forall l w0 wx, Gc_loop now p l w0 = Some (None, wx) ->
            forall l', Gc_loop now p (l ++ l') w0 = Gc_loop now p l' wx).
  { induction l as [|x l IH]; intros w0 wx H l'; simpl in *.
    - unfold ret in H. simplify_eq. reflexivity.
    - destruct (Expiry x <=? 0); [eauto|].
      destruct (Sub now (TimeUTC (Value x)) >? Expiry x); [|eauto].
      apply bind_inv in H as (err & w2 & Hr & H).
      rewrite (bind_Some _ _ _ _ _ Hr).
      destruct err; [discriminate|]. eauto. }
  assert (Hp_err : Gc_metric now p w1 = Some (Some e, wb)).
  { unfold Gc_metric. rewrite (bind_Some _ _ _ _ _ (deref_Some _ _ _ Hp)).
    rewrite Hlvs, (Hloop _ _ _ Hl1). simpl.
    unfold expired in Hexp. apply andb_true_iff in Hexp as [He1 He2].
    apply negb_true_iff in He1. rewrite He1, He2.
    rewrite (bind_Some _ _ _ _ _ Hrm). reflexivity. }
  split.
  - rewrite Gc_as_loop, Hv. eapply Range_loop_first_error; eauto.
  - intros q _ Hq Hqp.
    apply Gc_metric_frame in Hp_err as (_ & _ & Hh). rewrite (Hh q Hqp).
    revert Hq. clear Hv Hp Hl1 Hrm Hh.
    induction Hpre as [s|p0 ps s s1 s2 Hf _ IH]; intros Hq; [reflexivity|].
    apply Gc_metric_frame in Hf as (_ & _ & Hh).
    rewrite IH by (intros Hin; apply Hq; right; exact Hin).
    apply Hh. intros ->. apply Hq. left.
Qed.

(** *** The keys of a store *)

Lemma Metric_GetDatum_frame p labels w r w' :
  Metric_GetDatum p labels w = Some (r, w') -> frame_at p w w'.
Proof.
  unfold Metric_GetDatum. intros H.
  apply bind_inv in H as (m & w1 & Hd & H).
  unfold deref in Hd. destruct (heap w !! p); simplify_eq.
  destruct (GetDatum m labels) as [m' r'].
  apply bind_inv in H as ([] & w2 & Ha & H).
  unfold ret in H. simplify_eq. eapply assign_frame, Ha.
Qed.

Lemma appendLabelValue_frame p lv w w' :
  appendLabelValue p lv w = Some (tt, w') -> frame_at p w w'.
Proof.
  unfold appendLabelValue. intros H.
  apply bind_inv in H as (m & w1 & Hd & H).
  unfold deref in Hd. destruct (heap w !! p); simplify_eq.
  eapply assign_frame, H.
Qed.

(** The loop of [Add] writes to Metric objects only. *)
Lemma Add_copy_store v m old : forall w w',
  Add_copy v m old w = Some (tt, w') -> store w' = store w.
Proof.
  induction old as [|o rest IH]; intros w w' H; simpl in H.
  - unfold ret in H. by simplify_eq.
  - apply bind_inv in H as (r & w1 & Hg & H).
    apply Metric_GetDatum_frame in Hg as (Hs1 & _).
    apply bind_inv in H as ([] & w2 & Hstep & H).
    apply IH in H. rewrite H. clear H.
    destruct r as [d|e]; [|unfold ret in Hstep; by simplify_eq].
    apply bind_inv in Hstep as (err & w3 & Hr & Hstep).
    apply Metric_RemoveDatum_frame in Hr as (Hs3 & _).
    destruct err as [e|]; [unfold ret in Hstep; simplify_eq; congruence|].
    apply appendLabelValue_frame in Hstep as (Hs2 & _). congruence.
Qed.

(** [Add m] keeps the seed and changes the map at most at the key of [m]. *)
Lemma Add_keys m mv w r w' :
  heap w !! m = Some mv ->
  Add rthash m w = Some (r, w') ->
  hashSeed (store w') = hashSeed (store w) /\
  forall k p, Metrics (store w') !! k = Some p ->
    Metrics (store w) !! k = Some p \/
    k = hashMetric rthash (store w) (Name mv) (Program mv).
Proof.
  intros Hm H. unfold Add in H.
  rewrite (bind_Some _ _ _ _ _ (deref_Some _ _ _ Hm)) in H.
  rewrite (bind_Some _ _ _ _ _ (get_store_Some _)) in H. cbv beta zeta in H.
  destruct (Metrics (store w) !! hashMetric rthash (store w) (Name mv) (Program mv))
    as [v|] eqn:Hk.
  - rewrite (bind_Some _ _ _ _ _ (LoadOrStore_present _ _ _ _ Hk)) in H.
    cbv beta iota zeta delta [negb] in H.
    rewrite (bind_Some _ _ _ _ _ (deref_Some _ _ _ Hm)) in H.
    apply bind_inv in H as (vv & w1 & Hd & H).
    unfold deref in Hd. destruct (heap w !! v) as [vv0|]; [|discriminate].
    injection Hd as ? ?. subst vv0 w1.
    destruct (bool_decide (MKind mv = MKind vv)); cbv beta iota in H.
    2:{ unfold ret in H. simplify_eq. split; [reflexivity|]. intros; left; assumption. }
    apply bind_inv in H as ([] & w2 & Hcopy & H).
    assert (Hs : store w2 = store w).
    { destruct (_ && _); [eapply Add_copy_store, Hcopy|].
      unfold ret in Hcopy. by simplify_eq. }
    unfold bind, Map_Store, ret in H. simplify_eq. simpl. rewrite Hs.
    split; [reflexivity|]. intros k p Hkp.
    apply lookup_insert_Some in Hkp as [[<- _]|[_ Hkp]]; auto.
  - rewrite (bind_Some _ _ _ _ _ (LoadOrStore_absent _ _ _ Hk)) in H.
    unfold ret in H. simpl in H. simplify_eq. simpl.
    split; [reflexivity|]. intros k p Hkp.
    apply lookup_insert_Some in Hkp as [[<- _]|[_ Hkp]]; auto.
Qed.

(** Every key of a reached store is the hash of the name followed by the
    program of a Metric that was passed to [Add]. *)
Lemma reached_keys w ids :
  reached rthash w ids ->
  forall k p, Metrics (store w) !! k = Some p ->
    exists name prog, (name, prog) ∈ ids /\
      k = rthash (hashSeed (store w)) (name +:+ prog).
Proof.
  induction 1 as [seed h|w ids m mv r w' _ IH Hm HAdd|w ids h _ IH]; intros k p Hk.
  - simpl in Hk. rewrite lookup_empty in Hk. discriminate.
  - destruct (Add_keys m mv w r w' Hm HAdd) as [Hseed Hkeys].
    rewrite Hseed. destruct (Hkeys k p Hk) as [Hold| ->].
    + destruct (IH k p Hold) as (name & prog & Hin & ->).
      exists name, prog. split; [right; exact Hin|reflexivity].
    + exists (Name mv), (Program mv). split; [left|reflexivity].
  - apply (IH k p Hk).
Qed.

(** [FindMetricOrNil] returns nil for a name and program whose bytes, one
    after the other, hash to the key of no Metric that was added. *)
Lemma FindMetricOrNil_nil_unless_key_added w ids name prog :
  reached rthash w ids ->
  (forall n p, (n, p) ∈ ids ->
     rthash (hashSeed (store w)) (n +:+ p) <> rthash (hashSeed (store w)) (name +:+ prog)) ->
  FindMetricOrNil rthash name prog w = Some (None, w).
Proof.
  intros Hr Hne. rewrite FindMetricOrNil_lookup, hashMetric_concat.
  destruct (Metrics (store w) !! _) as [p|] eqn:Hk; [|reflexivity].
  destruct (reached_keys w ids Hr _ p Hk) as (n & pr & Hin & Heq).
  exfalso. apply (Hne n pr Hin). symmetry. exact Heq.
Qed.

End StoreFacts.

Section StoreIteration.

Context {ops : MetricOps}.
Variable visit : gmap N positive -> list (N * positive).

(** [sync.Map.Range] visits the entries of the map, each once, in an order
    of its own. *)
Hypothesis visit_enumerates : forall mp, visit mp ≡ₚ map_to_list mp.

Lemma logged_keeps_map {S} (view : S -> World) (f : ptr -> M S (option error)) :
  (forall p s0 r s1, f p s0 = Some (r, s1) ->
     Metrics (store (view s1)) = Metrics (store (view s0))) ->
  forall p sl r sl', logged f p sl = Some (r, sl') ->
    Metrics (store ((view ∘ fst) sl')) = Metrics (store ((view ∘ fst) sl)).
Proof.
  intros Hkeep p [s0 l] r [s1 l1] H. unfold logged in H. cbn [fst snd] in H.
  destruct (f p s0) as [[r1 s2]|] eqn:Hf; [|discriminate].
  injection H as <- <- <-. simpl. apply (Hkeep _ _ _ _ Hf).
Qed.

(** C7. [Range f] applies [f] to Metrics of the store one at a time, and
    returns whenever [f] does. When [Range] returns [r], the Metrics that
    [f] was applied to, in turn (the log that a logging callback keeps),
    show this: if [r] is an error, the last call returned it, every call
    before it returned nil, and [Range] returns in the state that call
    left, so that no Metric was passed to [f] after it; if [r] is nil,
    every call returned nil. Every Metric passed to [f] is one the store
    holds at that moment: [Range] does the same with the callback that
    panics on any other Metric. This holds for every callback, also one
    that stores or deletes entries of the store. With a callback that
    leaves the map of the store as it is, the Metrics passed to [f] are
    the stored ones in the order [Range] meets them, up to the failing
    one, and all of them when [Range] returns nil. *)
Theorem Range_stops_at_first_error {S} (view : S -> World)
    (f : ptr -> M S (option error)) (s : S) :
  ((forall p s0, is_Some (f p s0)) -> is_Some (Range visit view f s)) /\
  (forall r s',
     Range visit view f s = Some (r, s') ->
     exists log,
       Range visit (view ∘ fst) (logged f) (s, []) = Some (r, (s', log))) /\
  (forall r s' log,
     Range visit (view ∘ fst) (logged f) (s, []) = Some (r, (s', log)) ->
     Range visit view f s = Some (r, s') /\
     calls_until_error f log s s' r) /\
  Range visit view (on_stored view f) s = Range visit view f s /\
  ((forall p s0 r s1, f p s0 = Some (r, s1) ->
      Metrics (store (view s1)) = Metrics (store (view s0))) ->
   forall r s' log,
     Range visit (view ∘ fst) (logged f) (s, []) = Some (r, (s', log)) ->
     log `prefix_of` (visit (Metrics (store (view s)))).*2 /\
     (r = None -> log ≡ₚ (map_to_list (Metrics (store (view s)))).*2)).
Proof.
  pose proof (Map_Range_logged f
                (fun sr => Metrics (store (view (fst sr))))
                (fun sr => Metrics (store ((view ∘ fst) (fst sr))))
                (Metrics (store (view s))) (visit (Metrics (store (view s))))
                (fun _ _ _ => eq_refl) s []) as HL.
  assert (Hplain : Range visit view f s =
            match Map_Range (fun sr => Metrics (store (view (fst sr))))
                    (Metrics (store (view s))) (Range_body f)
                    (visit (Metrics (store (view s)))) (s, None) with
            | Some (_, (s', r)) => Some (r, s')
            | None => None
            end) by reflexivity.
  assert (Hlog : Range visit (view ∘ fst) (logged f) (s, []) =
            match Map_Range (fun sr => Metrics (store ((view ∘ fst) (fst sr))))
                    (Metrics (store (view s))) (Range_body (logged f))
                    (visit (Metrics (store (view s)))) ((s, []), None) with
            | Some (_, (sl, r)) => Some (r, sl)
            | None => None
            end) by reflexivity.
  split; [|split; [|split; [|split]]].
  - intros Hf. rewrite Hplain.
    destruct (Map_Range_returns view f (Metrics (store (view s)))
                (visit (Metrics (store (view s)))) Hf (s, None)) as [[u [s' r]] ->].
    eexists. reflexivity.
  - intros r s' H. rewrite Hplain in H. rewrite Hlog.
    destruct (Map_Range _ _ (Range_body f) _ (s, None)) as [[u [s0 r0]]|];
      [|discriminate].
    injection H as <- <-. destruct HL as (ps & -> & _). exists ps. reflexivity.
  - intros r s' log H. rewrite Hlog in H. rewrite Hplain.
    destruct (Map_Range _ _ (Range_body f) _ (s, None)) as [[u [s0 r0]]|].
    + destruct HL as (ps & Hrun & Hps). rewrite Hrun in H.
      injection H as <- <- <-. split; [reflexivity|exact Hps].
    + rewrite HL in H. discriminate.
  - unfold Range. cbv zeta. rewrite Map_Range_on_stored; [reflexivity|].
    intros k p Hin. apply elem_of_map_to_list.
    rewrite <- (visit_enumerates (Metrics (store (view s)))). exact Hin.
  - intros Hkeep r s' log H.
    rewrite (Range_as_loop visit (view ∘ fst) (logged f) (s, [])
               (logged_keeps_map view f Hkeep)) in H.
    apply Range_loop_logged_prefix in H as (ps & -> & Hpre & Hall).
    split; [exact Hpre|].
    intros Hr. rewrite (Hall Hr). apply fmap_Permutation, visit_enumerates.
Qed.

(** C4. [Gc] never removes a Metric from the store: a run returns, and
    after it the map from key to Metric is the one before, so every key
    still maps to the same object, and that object still exists, whatever
    became of its LabelValues. *)
Theorem Gc_keeps_every_Metric now w :
  (forall k p, Metrics (store w) !! k = Some p -> is_Some (heap w !! p)) ->
  exists r w', Gc visit now w = Some (r, w') /\
    Metrics (store w') = Metrics (store w) /\
    forall k p, Metrics (store w) !! k = Some p ->
      Metrics (store w') !! k = Some p /\ is_Some (heap w' !! p).
Proof.
  intros Hok.
  destruct (Gc_Range_loop_keeps now (visit (Metrics (store w))) w)
    as (r & w' & H & Hs & Hd).
  { intros k p Hin. apply (Hok k). apply elem_of_map_to_list.
    rewrite <- (visit_enumerates (Metrics (store w))). exact Hin. }
  exists r, w'. split; [rewrite Gc_as_loop; exact H|]. split; [congruence|].
  intros k p Hk. split; [congruence|].
  apply elem_of_dom. rewrite Hd. apply elem_of_dom. eauto.
Qed.

End StoreIteration.

(** * The store with the Metric methods of the specification *)

Section SpecStore.

Variable visit : gmap N positive -> list (N * positive).
Hypothesis visit_enumerates : forall mp, visit mp ≡ₚ map_to_list mp.

Lemma set_LabelValues_twice m l1 l2 :
  set_LabelValues (set_LabelValues m l1) l2 = set_LabelValues m l2.
Proof. reflexivity. Qed.

Lemma filter_other_tuples (kept rest : list LabelValue) lv :
  NoDup (Labels <$> (kept ++ lv :: rest)) ->
  filter (fun x => Labels x <> Labels lv) (kept ++ lv :: rest) = kept ++ rest.
Proof.
  rewrite fmap_app, fmap_cons. intros H.
  apply NoDup_app in H as (_ & Hkept & Hrest).
  apply NoDup_cons in Hrest as [Hrest _].
  assert (Hid : forall l : list LabelValue,
            Labels lv ∉ Labels <$> l -> filter (fun x => Labels x <> Labels lv) l = l).
  { induction l as [|x l IH]; intros Hl; [reflexivity|].
    rewrite fmap_cons in Hl. apply not_elem_of_cons in Hl as [Hx Hl].
    rewrite filter_cons_True by congruence. f_equal. apply IH, Hl. }
  rewrite filter_app, filter_cons_False by (intros Hne; apply Hne; reflexivity).
  rewrite (Hid rest Hrest). f_equal. apply Hid.
  intros Hin. apply (Hkept _ Hin). left.
Qed.

(** The loop of [Gc] over the rest of a Metric's LabelValues, when the
    label tuples are distinct: no removal fails, and the expired ones of
    the rest are gone. *)
Lemma Gc_loop_sweeps now p rest : forall kept cur w,
  heap w !! p = Some cur ->
  LabelValues cur = kept ++ rest ->
  NoDup (Labels <$> (kept ++ rest)) ->
  exists w', Gc_loop now p rest w = Some (None, w') /\
    store w' = store w /\
    heap w' = <[p := set_LabelValues cur
                       (kept ++ filter (fun lv => expired now lv = false) rest)]> (heap w).
Proof.
  induction rest as [|lv rest IH]; intros kept cur w Hp Hcur Hnd; simpl.
  - exists w. split; [reflexivity|]. split; [reflexivity|].
    rewrite filter_nil, <- Hcur. symmetry. apply insert_id.
    rewrite Hp. destruct cur; reflexivity.
  - assert (Hkeep : expired now lv = false ->
        exists w', Gc_loop now p rest w = Some (None, w') /\
          store w' = store w /\
          heap w' = <[p := set_LabelValues cur
             (kept ++ filter (fun lv => expired now lv = false) (lv :: rest))]> (heap w)).
    { intros He. rewrite filter_cons_True by exact He.
      destruct (IH (kept ++ [lv]) cur w Hp) as (w' & H & Hs & Hh).
      - rewrite <- app_assoc. exact Hcur.
      - rewrite <- app_assoc. exact Hnd.
      - exists w'. split; [exact H|]. split; [exact Hs|].
        rewrite Hh, <- app_assoc. reflexivity. }
    unfold expired in *.
    destruct (Expiry lv <=? 0) eqn:E1; [apply Hkeep; reflexivity|].
    destruct (Sub now (TimeUTC (Value lv)) >? Expiry lv) eqn:E2;
      [|apply Hkeep; reflexivity].
    rewrite (bind_Some _ _ _ _ _ (Metric_RemoveDatum_returns _ _ _ _ Hp)).
    simpl. unfold spec_RemoveDatum.
    rewrite decide_True.
    2:{ unfold tuples. rewrite Hcur, fmap_app, fmap_cons. set_solver. }
    simpl. rewrite Hcur, (filter_other_tuples _ _ _ Hnd).
    destruct (IH kept (set_LabelValues cur (kept ++ rest))
                (set_heap w (<[p := set_LabelValues cur (kept ++ rest)]> (heap w))))
      as (w' & H & Hs & Hh).
    + simpl. apply lookup_insert_eq.
    + reflexivity.
    + rewrite fmap_app. rewrite fmap_app, fmap_cons in Hnd.
      apply NoDup_app in Hnd as (H1 & H2 & H3). apply NoDup_cons in H3 as [_ H3].
      apply NoDup_app. split; [exact H1|]. split; [|exact H3].
      intros x Hx Hin. apply (H2 x Hx). right. exact Hin.
    + exists w'. split; [exact H|]. split; [exact Hs|].
      rewrite Hh. simpl. rewrite insert_insert_eq.
      rewrite filter_cons_False; [reflexivity|].
      rewrite E1, E2. discriminate.
Qed.

Lemma Gc_metric_sweeps now p mv w :
  heap w !! p = Some mv ->
  NoDup (tuples mv) ->
  exists w', Gc_metric now p w = Some (None, w') /\
    store w' = store w /\
    heap w' = <[p := sweep now mv]> (heap w).
Proof.
  intros Hp Hnd. unfold Gc_metric.
  rewrite (bind_Some _ _ _ _ _ (deref_Some _ _ _ Hp)).
  apply (Gc_loop_sweeps now p (LabelValues mv) [] mv w Hp); [reflexivity|exact Hnd].
Qed.

Lemma sweep_twice now mv : sweep now (sweep now mv) = sweep now mv.
Proof.
  unfold sweep. simpl. f_equal.
  rewrite list_filter_filter. apply list_filter_iff. tauto.
Qed.

Lemma sweep_NoDup now mv : NoDup (tuples mv) -> NoDup (tuples (sweep now mv)).
Proof.
  unfold tuples, sweep. simpl. intros H.
  eapply sublist_NoDup; [exact H|apply fmap_sublist, sublist_filter].
Qed.

(** The sweep over the entries [es], when every Metric visited exists and
    has distinct label tuples: it returns nil, and exactly the Metrics
    visited are swept. *)
Lemma Gc_Range_loop_sweeps now es : forall w,
  (forall k p, (k, p) ∈ es -> exists mv, heap w !! p = Some mv /\ NoDup (tuples mv)) ->
  exists w', Range_loop (Gc_metric now) es w = Some (None, w') /\
    store w' = store w /\
    forall q, heap w' !! q =
      if decide (q ∈ es.*2) then sweep now <$> heap w !! q else heap w !! q.
Proof.
  induction es as [|[k p] es IH]; intros w Hok.
  - exists w. split; [reflexivity|]. split; [reflexivity|].
    intros q. rewrite fmap_nil, decide_False by apply not_elem_of_nil. reflexivity.
  - destruct (Hok k p) as (mv & Hp & Hnd); [left|].
    destruct (Gc_metric_sweeps now p mv w Hp Hnd) as (w1 & H1 & Hs1 & Hh1).
    cbn [Range_loop]. rewrite (bind_Some _ _ _ _ _ H1).
    destruct (IH w1) as (w' & H & Hs & Hh).
    { intros k' p' Hin. rewrite Hh1.
      destruct (decide (p' = p)) as [->|Hne].
      - rewrite lookup_insert_eq. eauto using sweep_NoDup.
      - rewrite lookup_insert_ne by congruence. apply (Hok k'). right. exact Hin. }
    exists w'. split; [exact H|]. split; [congruence|].
    intros q. rewrite Hh, Hh1, fmap_cons. cbn [snd].
    destruct (decide (q = p)) as [->|Hne].
    + rewrite lookup_insert_eq, Hp.
      rewrite (decide_True (P := p ∈ p :: es.*2)) by left.
      destruct (decide (p ∈ es.*2)); cbn [fmap option_fmap option_map];
        [rewrite sweep_twice|]; reflexivity.
    + rewrite lookup_insert_ne by congruence.
      destruct (decide (q ∈ es.*2)) as [Hin|Hnin].
      * rewrite decide_True by (right; exact Hin). reflexivity.
      * rewrite decide_False; [reflexivity|].
        intros Hin. apply elem_of_cons in Hin as [?|?]; contradiction.
Qed.

(** A run of [Gc] on a store whose Metrics exist and hold each label tuple
    once returns nil and leaves every stored Metric swept. *)
Lemma Gc_sweeps_store now w :
  (forall k p, Metrics (store w) !! k = Some p ->
     exists mv, heap w !! p = Some mv /\ NoDup (tuples mv)) ->
  exists w', Gc visit now w = Some (None, w') /\
    store w' = store w /\
    forall k p mv, Metrics (store w) !! k = Some p -> heap w !! p = Some mv ->
      heap w' !! p = Some (sweep now mv).
Proof.
  intros Hok.
  destruct (Gc_Range_loop_sweeps now (visit (Metrics (store w))) w)
    as (w' & H & Hs & Hh).
  { intros k p Hin. apply (Hok k). apply elem_of_map_to_list.
    rewrite <- (visit_enumerates (Metrics (store w))). exact Hin. }
  exists w'. split; [rewrite Gc_as_loop; exact H|]. split; [exact Hs|].
  intros k p mv Hk Hp. rewrite Hh, Hp.
  rewrite decide_True; [reflexivity|].
  apply list_elem_of_fmap. exists (k, p). split; [reflexivity|].
  rewrite (visit_enumerates (Metrics (store w))).
  apply elem_of_map_to_list, Hk.
Qed.

(** C3, amended. On a store whose Metrics exist and hold each label tuple
    once, a run of [Gc] at time [now] returns nil, and every LabelValue
    [lv] of a stored Metric is removed from the Metric if and only if its
    expiry is above zero and [now.Sub(timestamp)] is above the expiry.
    So with an expiry above zero and below the largest Duration, [lv] is
    removed if and only if [now - timestamp > Expiry]; it is kept when
    the difference equals the expiry; it is kept when it has no expiry;
    and it is kept, whatever its age, when its expiry is the largest
    Duration. *)
Theorem Gc_removes_iff_expired now w :
  (forall k p, Metrics (store w) !! k = Some p ->
     exists mv, heap w !! p = Some mv /\ NoDup (tuples mv)) ->
  exists w', Gc visit now w = Some (None, w') /\
    forall k p mv lv,
      Metrics (store w) !! k = Some p ->
      heap w !! p = Some mv ->
      lv ∈ LabelValues mv ->
      exists mv', heap w' !! p = Some mv' /\
        (lv ∉ LabelValues mv' <->
           0 < Expiry lv /\ Sub now (TimeUTC (Value lv)) > Expiry lv) /\
        (0 < Expiry lv < maxDuration ->
           (lv ∉ LabelValues mv' <-> now - TimeUTC (Value lv) > Expiry lv)) /\
        (0 < Expiry lv -> now - TimeUTC (Value lv) = Expiry lv ->
           lv ∈ LabelValues mv') /\
        (Expiry lv <= 0 -> lv ∈ LabelValues mv') /\
        (maxDuration <= Expiry lv -> lv ∈ LabelValues mv').
Proof.
  intros Hok.
  destruct (Gc_sweeps_store now w Hok) as (w' & H & _ & Hh).
  exists w'. split; [exact H|].
  intros k p mv lv Hk Hp Hlv.
  exists (sweep now mv). split; [eauto|].
  assert (Hin : lv ∈ LabelValues (sweep now mv) <-> expired now lv = false).
  { unfold sweep. simpl. rewrite list_elem_of_filter. tauto. }
  assert (Hout : lv ∉ LabelValues (sweep now mv) <->
                 0 < Expiry lv /\ Sub now (TimeUTC (Value lv)) > Expiry lv).
  { rewrite Hin. unfold expired.
    destruct (Expiry lv <=? 0) eqn:E1;
      destruct (Sub now (TimeUTC (Value lv)) >? Expiry lv) eqn:E2; simpl;
      (split; [intros Hne; try (exfalso; apply Hne; reflexivity); lia
              |intros [? ?]; try discriminate; lia]). }
  pose proof (Sub_le_maxDuration now (TimeUTC (Value lv))) as Hmax.
  split; [exact Hout|]. split; [|split; [|split]].
  - intros Hd. rewrite Hout, <- (Sub_above now (TimeUTC (Value lv)) (Expiry lv)).
    + split; [tauto|]. intros ?. split; [lia|assumption].
    + unfold minDuration. lia.
  - intros Hpos Heq.
    destruct (decide (lv ∈ LabelValues (sweep now mv))) as [|Hne]; [assumption|].
    apply Hout in Hne as [_ Hgt]. exfalso.
    destruct (decide (Expiry lv < maxDuration)) as [Hlt|Hge]; [|lia].
    apply (Sub_above now (TimeUTC (Value lv)) (Expiry lv)) in Hgt;
      [lia|unfold minDuration; lia].
  - intros Hle.
    destruct (decide (lv ∈ LabelValues (sweep now mv))) as [|Hne]; [assumption|].
    apply Hout in Hne. lia.
  - intros Hge.
    destruct (decide (lv ∈ LabelValues (sweep now mv))) as [|Hne]; [assumption|].
    apply Hout in Hne. lia.
Qed.

End SpecStore.

Section SpecAdd.

Variable rthash : Seed -> string -> uint64.

(** *** What [Add] does carry over *)

Lemma set_heap_same w p m :
  heap w !! p = Some m -> set_heap w (<[p := m]> (heap w)) = w.
Proof. intros H. unfold set_heap. rewrite (insert_id _ _ _ H). destruct w; reflexivity. Qed.

Lemma find_hasLabels (l : list LabelValue) o :
  NoDup (Labels <$> l) -> o ∈ l -> List.find (hasLabels (Labels o)) l = Some o.
Proof.
  induction l as [|x l IH]; intros Hnd Ho; [by apply elem_of_nil in Ho|].
  rewrite fmap_cons in Hnd. apply NoDup_cons in Hnd as [Hx Hnd].
  simpl. unfold hasLabels at 1.
  apply elem_of_cons in Ho as [->|Ho].
  - rewrite bool_decide_eq_true_2 by reflexivity. reflexivity.
  - rewrite bool_decide_eq_false_2; [apply IH; assumption|].
    intros Heq. apply Hx. rewrite Heq. apply list_elem_of_fmap_2, Ho.
Qed.

Lemma Metric_GetDatum_found v vv o w :
  heap w !! v = Some vv ->
  NoDup (tuples vv) ->
  o ∈ LabelValues vv ->
  Metric_GetDatum v (Labels o) w = Some (Ok (Value o), w).
Proof.
  intros Hv Hnd Ho. unfold Metric_GetDatum.
  rewrite (bind_Some _ _ _ _ _ (deref_Some _ _ _ Hv)).
  simpl. unfold spec_GetDatum. rewrite (find_hasLabels _ _ Hnd Ho).
  rewrite (bind_Some _ _ _ _ _ (assign_Some _ _ _ _ Hv)).
  rewrite (set_heap_same _ _ _ Hv). reflexivity.
Qed.

Lemma appendLabelValue_returns p lv m w :
  heap w !! p = Some m ->
  appendLabelValue p lv w =
    Some (tt, set_heap w (<[p := set_LabelValues m (LabelValues m ++ [lv])]> (heap w))).
Proof.
  intros H. unfold appendLabelValue.
  rewrite (bind_Some _ _ _ _ _ (deref_Some _ _ _ H)).
  apply (assign_Some _ _ _ _ H).
Qed.

(** The loop of [Add], when the old Metric [v] and the new one [m] are two
    objects and [v] holds each label tuple once: [v] is read only, and [m]
    ends with the LabelValues [copied] gives. *)
Lemma Add_copy_copied v m vv old : forall mv w,
  v <> m ->
  heap w !! v = Some vv ->
  heap w !! m = Some mv ->
  NoDup (tuples vv) ->
  (forall o, o ∈ old -> o ∈ LabelValues vv) ->
  exists w', Add_copy v m old w = Some (tt, w') /\
    store w' = store w /\
    heap w' = <[m := set_LabelValues mv (copied old (LabelValues mv))]> (heap w).
Proof.
  induction old as [|o rest IH]; intros mv w Hvm Hv Hm Hnd Hold; simpl.
  - exists w. split; [reflexivity|]. split; [reflexivity|].
    symmetry. apply insert_id. rewrite Hm. destruct mv; reflexivity.
  - rewrite (bind_Some _ _ _ _ _
               (Metric_GetDatum_found v vv o w Hv Hnd (Hold o ltac:(left)))).
    rewrite bind_assoc.
    rewrite (bind_Some _ _ _ _ _ (Metric_RemoveDatum_returns _ _ _ _ Hm)).
    simpl. unfold spec_RemoveDatum, tuples.
    destruct (decide (Labels o ∈ Labels <$> LabelValues mv)) as [Hin|Hnin]; simpl.
    + rewrite (bind_Some _ _ _ _ _
                 (appendLabelValue_returns _ _ _ _ (lookup_insert_eq _ _ _))).
      simpl. rewrite insert_insert_eq.
      destruct (IH (set_LabelValues mv
                      (filter (fun x => Labels x <> Labels o) (LabelValues mv) ++
                       [mkLabelValue (Labels o) (Value o) 0]))
                  (set_heap (set_heap w (<[m := set_LabelValues mv
                       (filter (fun x => Labels x <> Labels o) (LabelValues mv))]> (heap w)))
                     (<[m := set_LabelValues mv
                      (filter (fun x => Labels x <> Labels o) (LabelValues mv) ++
                       [mkLabelValue (Labels o) (Value o) 0])]> (heap w))))
        as (w' & H & Hs & Hh); auto.
      * simpl. rewrite lookup_insert_ne by congruence. exact Hv.
      * simpl. apply lookup_insert_eq.
      * intros x Hx. apply Hold. right. exact Hx.
      * exists w'. split; [exact H|]. split; [exact Hs|].
        rewrite Hh. simpl. rewrite insert_insert_eq. reflexivity.
    + rewrite (set_heap_same _ _ _ Hm).
      destruct (IH mv w) as (w' & H & Hs & Hh); auto.
      * intros x Hx. apply Hold. right. exact Hx.
      * exists w'. auto.
Qed.

Lemma copied_keeps (old cur : list LabelValue) x :
  x ∈ cur -> Labels x ∉ Labels <$> old -> x ∈ copied old cur.
Proof.
  revert cur. induction old as [|o rest IH]; intros cur Hx Hold; [exact Hx|].
  rewrite fmap_cons in Hold. apply not_elem_of_cons in Hold as [Hne Hold].
  simpl. apply IH; [|exact Hold].
  destruct (decide (Labels o ∈ Labels <$> cur)); [|exact Hx].
  apply elem_of_app. left. apply list_elem_of_filter. split; [exact Hne|exact Hx].
Qed.

Lemma copied_tuples (old cur : list LabelValue) t :
  t ∈ Labels <$> copied old cur <-> t ∈ Labels <$> cur.
Proof.
  revert cur. induction old as [|o rest IH]; intros cur; [reflexivity|].
  simpl. rewrite IH.
  destruct (decide (Labels o ∈ Labels <$> cur)) as [Hin|]; [|reflexivity].
  rewrite fmap_app, elem_of_app. simpl. rewrite list_elem_of_singleton.
  rewrite !list_elem_of_fmap. split.
  - intros [(x & -> & Hx)| ->]; [|apply list_elem_of_fmap in Hin; exact Hin].
    apply list_elem_of_filter in Hx as [_ Hx]. eauto.
  - intros (x & -> & Hx). destruct (decide (Labels x = Labels o)) as [He|Hne]; [right; exact He|].
    left. exists x. split; [reflexivity|]. apply list_elem_of_filter. auto.
Qed.

Lemma copied_carries (old cur : list LabelValue) o :
  NoDup (Labels <$> old) ->
  o ∈ old ->
  Labels o ∈ Labels <$> cur ->
  mkLabelValue (Labels o) (Value o) 0 ∈ copied old cur.
Proof.
  revert cur. induction old as [|x rest IH]; intros cur Hnd Ho Hcur;
    [by apply elem_of_nil in Ho|].
  rewrite fmap_cons in Hnd. apply NoDup_cons in Hnd as [Hx Hnd].
  simpl. apply elem_of_cons in Ho as [->|Ho].
  - rewrite decide_True by exact Hcur.
    apply copied_keeps; [|exact Hx].
    apply elem_of_app. right. apply list_elem_of_singleton. reflexivity.
  - apply IH; [exact Hnd|exact Ho|].
    destruct (decide (Labels x ∈ Labels <$> cur)); [|exact Hcur].
    rewrite fmap_app, elem_of_app.
    destruct (decide (Labels o = Labels x)) as [He|Hne].
    + right. simpl. apply list_elem_of_singleton. exact He.
    + left. apply list_elem_of_fmap in Hcur as (y & Hy & Hin).
      apply list_elem_of_fmap. exists y. split; [exact Hy|].
      apply list_elem_of_filter. split; [congruence|exact Hin].
Qed.

(** What [Add] carries over, with the Metric methods of the
    specification: when the key of [m] maps to another object [v] of the
    same Kind and Keys that holds each label tuple once, [Add m] returns
    nil and makes the key map to [m]; every label tuple of [v] that [m]
    held before the call is in [m] with the Datum of [v], and [m] gains no
    tuple. In particular a Metric that holds the tuples of [v] keeps all
    the values of [v]. *)
Lemma Add_same_Keys_carries_shared_tuples m mv v vv w :
  v <> m ->
  heap w !! m = Some mv ->
  Metrics (store w) !! hashMetric rthash (store w) (Name mv) (Program mv) = Some v ->
  heap w !! v = Some vv ->
  MKind mv = MKind vv ->
  Keys mv = Keys vv ->
  NoDup (tuples vv) ->
  exists w' mv',
    Add rthash m w = Some (None, w') /\
    Metrics (store w') =
      <[hashMetric rthash (store w) (Name mv) (Program mv) := m]> (Metrics (store w)) /\
    heap w' !! m = Some mv' /\
    (forall lv, lv ∈ LabelValues vv -> Labels lv ∈ tuples mv ->
       mkLabelValue (Labels lv) (Value lv) 0 ∈ LabelValues mv') /\
    (forall t, t ∈ tuples mv' <-> t ∈ tuples mv).
Proof.
  intros Hvm Hm Hk Hv Hkind Hkeys Hnd.
  destruct (Add_copy_copied v m vv (LabelValues vv) mv w Hvm Hv Hm Hnd)
    as (w1 & Hcopy & Hs & Hh); [auto|].
  exists (set_Metrics w1 (<[hashMetric rthash (store w) (Name mv) (Program mv) := m]>
                            (Metrics (store w1)))),
         (set_LabelValues mv (copied (LabelValues vv) (LabelValues mv))).
  split; [exact (Add_same_Keys rthash m mv v vv w w1 Hm Hk Hv Hkind Hkeys Hcopy)|].
  simpl. rewrite Hs, Hh, lookup_insert_eq.
  split; [reflexivity|]. split; [reflexivity|]. split.
  - intros lv Hlv Hin. apply copied_carries; assumption.
  - intros t. apply copied_tuples.
Qed.

(** With the Metric methods of the specification: a store holds the
    counter [lines_old], whose label tuples [a] and [b] carry the values
    5 and 7; [Add] of the same metric
    unchanged in name, program, Kind and Keys, and fresh, returns nil and
    replaces the entry; the new Metric holds no LabelValue, so no Datum of
    the old one was migrated. [RemoveDatum] on the new Metric reports
    not-found for each old tuple, and the loop of [Add] appends only
    after a removal that succeeds. *)
Theorem Add_unchanged_metric_loses_tuples :
  exists w1 w2,
    Add rthash 1%positive (mkWorld (NewStore seed0) reload_heap) = Some (None, w1) /\
    Add rthash 4%positive w1 = Some (None, w2) /\
    FindMetricOrNil rthash "lines" "log.mtail" w2 = Some (Some 4%positive, w2) /\
    heap w2 !! 4%positive = Some lines_fresh /\
    LabelValues lines_fresh = [].
Proof.
  eexists _, _. split; [|split].
  - apply (Add_absent rthash 1%positive lines_old); [reflexivity|]. simpl. apply lookup_empty.
  - apply (Add_same_Keys rthash 4%positive lines_fresh 1%positive lines_old);
      [reflexivity| |reflexivity|reflexivity|reflexivity|].
    + simpl. apply lookup_insert_eq.
    + vm_compute. reflexivity.
  - rewrite FindMetricOrNil_lookup. simpl.
    rewrite !hashMetric_concat. simpl.
    change ("lines" +:+ "log.mtail") with "lineslog.mtail".
    rewrite lookup_insert_eq. repeat split; reflexivity.
Qed.

End SpecAdd.

(** * [Add] with a [RemoveDatum] that accepts absent tuples

    The loop of [Add] appends an old tuple only after [RemoveDatum] on the
    new Metric returned nil. Were [RemoveDatum] to return nil also for a
    tuple the Metric does not hold, [Add] would carry over every
    LabelValue of the old Metric. *)

Section AcceptingRemoveDatum.

Context {ops : MetricOps}.
Variable rthash : Seed -> string -> uint64.

Hypothesis GetDatum_held : forall m o,
  NoDup (tuples m) -> o ∈ LabelValues m -> GetDatum m (Labels o) = (m, Ok (Value o)).

Hypothesis RemoveDatum_accepts : forall m labels,
  RemoveDatum m labels =
    (set_LabelValues m (filter (fun x => Labels x <> labels) (LabelValues m)), None).

Lemma Add_copy_moved v m vv old : forall mv w,
  v <> m ->
  heap w !! v = Some vv ->
  heap w !! m = Some mv ->
  NoDup (tuples vv) ->
  (forall o, o ∈ old -> o ∈ LabelValues vv) ->
  exists w', Add_copy v m old w = Some (tt, w') /\
    store w' = store w /\
    heap w' = <[m := set_LabelValues mv (moved old (LabelValues mv))]> (heap w).
Proof.
  induction old as [|o rest IH]; intros mv w Hvm Hv Hm Hnd Hold; simpl.
  - exists w. split; [reflexivity|]. split; [reflexivity|].
    symmetry. apply insert_id. rewrite Hm. destruct mv; reflexivity.
  - assert (Hget : Metric_GetDatum v (Labels o) w = Some (Ok (Value o), w)).
    { unfold Metric_GetDatum.
      rewrite (bind_Some _ _ _ _ _ (deref_Some _ _ _ Hv)).
      rewrite (GetDatum_held vv o Hnd (Hold o ltac:(left))).
      rewrite (bind_Some _ _ _ _ _ (assign_Some _ _ _ _ Hv)).
      rewrite (set_heap_same _ _ _ Hv). reflexivity. }
    rewrite (bind_Some _ _ _ _ _ Hget), bind_assoc.
    rewrite (bind_Some _ _ _ _ _ (Metric_RemoveDatum_returns _ _ _ _ Hm)).
    rewrite RemoveDatum_accepts. cbn [fst snd].
    rewrite (bind_Some _ _ _ _ _
               (appendLabelValue_returns _ _ _ _ (lookup_insert_eq _ _ _))).
    simpl. rewrite insert_insert_eq.
    destruct (IH (set_LabelValues mv
                    (filter (fun x => Labels x <> Labels o) (LabelValues mv) ++
                     [mkLabelValue (Labels o) (Value o) 0]))
                (set_heap (set_heap w (<[m := set_LabelValues mv
                     (filter (fun x => Labels x <> Labels o) (LabelValues mv))]> (heap w)))
                   (<[m := set_LabelValues mv
                    (filter (fun x => Labels x <> Labels o) (LabelValues mv) ++
                     [mkLabelValue (Labels o) (Value o) 0])]> (heap w))))
      as (w' & H & Hs & Hh); auto.
    + simpl. rewrite lookup_insert_ne by congruence. exact Hv.
    + simpl. apply lookup_insert_eq.
    + intros x Hx. apply Hold. right. exact Hx.
    + exists w'. split; [exact H|]. split; [exact Hs|].
      rewrite Hh. simpl. rewrite insert_insert_eq. reflexivity.
Qed.

Lemma moved_keeps (old cur : list LabelValue) x :
  x ∈ cur -> Labels x ∉ Labels <$> old -> x ∈ moved old cur.
Proof.
  revert cur. induction old as [|o rest IH]; intros cur Hx Hold; [exact Hx|].
  rewrite fmap_cons in Hold. apply not_elem_of_cons in Hold as [Hne Hold].
  simpl. apply IH; [|exact Hold].
  apply elem_of_app. left. apply list_elem_of_filter. split; [exact Hne|exact Hx].
Qed.

Lemma moved_carries (old cur : list LabelValue) o :
  NoDup (Labels <$> old) ->
  o ∈ old ->
  mkLabelValue (Labels o) (Value o) 0 ∈ moved old cur.
Proof.
  revert cur. induction old as [|x rest IH]; intros cur Hnd Ho;
    [by apply elem_of_nil in Ho|].
  rewrite fmap_cons in Hnd. apply NoDup_cons in Hnd as [Hx Hnd].
  simpl. apply elem_of_cons in Ho as [->|Ho]; [|apply IH; assumption].
  apply moved_keeps; [|exact Hx].
  apply elem_of_app. right. apply list_elem_of_singleton. reflexivity.
Qed.

(** With such a [RemoveDatum], [Add] on a present key with the same Kind
    and Keys gives the new Metric every label tuple of the old one with
    its Datum. *)
Lemma Add_same_Keys_would_carry_all m mv v vv w :
  v <> m ->
  heap w !! m = Some mv ->
  Metrics (store w) !! hashMetric rthash (store w) (Name mv) (Program mv) = Some v ->
  heap w !! v = Some vv ->
  MKind mv = MKind vv ->
  Keys mv = Keys vv ->
  NoDup (tuples vv) ->
  exists w' mv',
    Add rthash m w = Some (None, w') /\
    Metrics (store w') =
      <[hashMetric rthash (store w) (Name mv) (Program mv) := m]> (Metrics (store w)) /\
    heap w' !! m = Some mv' /\
    forall lv, lv ∈ LabelValues vv ->
      mkLabelValue (Labels lv) (Value lv) 0 ∈ LabelValues mv'.
Proof.
  intros Hvm Hm Hk Hv Hkind Hkeys Hnd.
  destruct (Add_copy_moved v m vv (LabelValues vv) mv w Hvm Hv Hm Hnd)
    as (w1 & Hcopy & Hs & Hh); [auto|].
  exists (set_Metrics w1 (<[hashMetric rthash (store w) (Name mv) (Program mv) := m]>
                            (Metrics (store w1)))),
         (set_LabelValues mv (moved (LabelValues vv) (LabelValues mv))).
  split; [exact (Add_same_Keys rthash m mv v vv w w1 Hm Hk Hv Hkind Hkeys Hcopy)|].
  simpl. rewrite Hs, Hh, lookup_insert_eq.
  split; [reflexivity|]. split; [reflexivity|].
  intros lv Hlv. apply moved_carries; assumption.
Qed.

End AcceptingRemoveDatum.

(** Metric methods of that kind exist. *)
Example accepting_methods_exist :
  exists ops : MetricOps,
    (forall m o, NoDup (tuples m) -> o ∈ LabelValues m ->
       GetDatum m (Labels o) = (m, Ok (Value o))) /\
    (forall m labels,
       RemoveDatum m labels =
         (set_LabelValues m (filter (fun x => Labels x <> labels) (LabelValues m)), None)).
Proof.
  exists {| GetDatum := spec_GetDatum;
            RemoveDatum := fun m labels =>
              (set_LabelValues m (filter (fun x => Labels x <> labels) (LabelValues m)),
               None) |}.
  split; [|reflexivity].
  intros m o Hnd Ho. simpl. unfold spec_GetDatum.
  rewrite (find_hasLabels _ _ Hnd Ho). reflexivity.
Qed.

(** * Properties of the code generator *)

Module CompilerFacts.

Import Compiler.

(** The code generator agrees with the whole table [programs]: the tree
    of each source compiles to the bytecode the test expects. *)
Lemma Compile_passes_TestCompile :
  Forall (fun t => Compile (snd t) = expected (fst t) /\ is_Some (expected (fst t))) parsed.
Proof. repeat constructor; vm_compute; eauto. Qed.

(** Induction on statements, with the hypothesis for every statement of a
    block. *)
Lemma stmt_nested_ind (P : stmt -> Prop) :
  (forall m, P (Incr m)) ->
  (forall m e, P (IncrBy m e)) ->
  (forall m e, P (Assign m e)) ->
  (forall args, P (Strptime args)) ->
  (forall c body, Forall P body -> P (Cond c body)) ->
  forall s, P s.
Proof.
  intros H1 H2 H3 H4 H5. fix IH 1. intros [m|m e|m e|args|c body].
  - apply H1.
  - apply H2.
  - apply H3.
  - apply H4.
  - apply H5. induction body as [|x body IHb]; constructor; [apply IH|exact IHb].
Qed.

Lemma appends_ret : appends (ret tt).
Proof. intros s s' H. unfold ret in H. simplify_eq. exists []. by rewrite app_nil_r. Qed.

Lemma appends_fail : appends fail.
Proof. intros s s' H. discriminate. Qed.

Lemma appends_emit i : appends (emit i).
Proof. intros s s' H. unfold emit in H. simplify_eq. simpl. eauto. Qed.

Lemma appends_seq (c1 c2 : M cstate unit) :
  appends c1 -> appends c2 -> appends (c1 ;;; c2).
Proof.
  intros A1 A2 s s' H. unfold bind in H.
  destruct (c1 s) as [[[] s1]|] eqn:E1; [|discriminate].
  destruct (A1 _ _ E1) as [k1 H1]. destruct (A2 _ _ H) as [k2 H2].
  exists (k1 ++ k2). rewrite H2, H1, app_assoc. reflexivity.
Qed.

Lemma appends_compile_expr sc e : appends (compile_expr sc e).
Proof.
  destruct e as [n|t|n|name]; simpl.
  - apply appends_emit.
  - intros s s' H. unfold bind, add_str, emit in H. simplify_eq. simpl. eauto.
  - destruct sc as [[ri groups]|]; [|apply appends_fail].
    apply appends_seq; apply appends_emit.
  - destruct sc as [[ri groups]|]; [|apply appends_fail].
    destruct (index_of name groups); [|apply appends_fail].
    apply appends_seq; apply appends_emit.
Qed.

Lemma appends_compile_exprs sc es : appends (compile_exprs sc es).
Proof.
  induction es as [|e es IH]; simpl; [apply appends_ret|].
  apply appends_seq; [apply appends_compile_expr|exact IH].
Qed.

Lemma appends_mload_of metrics m : appends (mload_of metrics m).
Proof.
  unfold mload_of. destruct (index_of m metrics); [apply appends_emit|apply appends_fail].
Qed.

Lemma appends_sequence cs : Forall appends cs -> appends (sequence cs).
Proof.
  induction 1 as [|c cs Hc _ IH]; simpl; [apply appends_ret|].
  apply appends_seq; assumption.
Qed.

(** The tail of a conditional: a placeholder branch, the block, and the
    patch of the branch. *)
Lemma appends_patched (body : M cstate unit) (j : Z -> instr) :
  appends body ->
  appends (at_ <- pc ;; emit (j 0) ;;; body ;;; past <- pc ;; patch at_ (j (Z.of_nat past))).
Proof.
  intros Hb s s' H. unfold bind at 1 in H. unfold pc at 1 in H.
  unfold bind at 1 in H. unfold emit at 1 in H.
  unfold bind at 1 in H.
  destruct (body _) as [[[] s1]|] eqn:E1; [|discriminate].
  apply Hb in E1 as [code Hcode]. simpl in Hcode.
  unfold bind, pc, patch in H. simplify_eq. simpl.
  rewrite Hcode, <- app_assoc. simpl.
  exists (j (Z.of_nat (length (prog s ++ j 0 :: code))) :: code).
  rewrite insert_app_r_alt by lia. rewrite Nat.sub_diag. reflexivity.
Qed.

Lemma appends_compile_stmt metrics s : forall sc, appends (compile_stmt metrics sc s).
Proof.
  induction s as [m|m e|m e|args|c body IH] using stmt_nested_ind; intros sc; simpl.
  - apply appends_seq; [apply appends_mload_of|apply appends_emit].
  - apply appends_seq; [apply appends_mload_of|].
    apply appends_seq; [apply appends_compile_expr|apply appends_emit].
  - apply appends_seq; [apply appends_mload_of|].
    apply appends_seq; [apply appends_compile_expr|apply appends_emit].
  - apply appends_seq; [apply appends_compile_exprs|apply appends_emit].
  - destruct c as [pattern groups|lhs o rhs].
    + intros s s' H. unfold bind at 1 in H. unfold add_re at 1 in H.
      unfold bind at 1 in H. unfold emit at 1 in H.
      apply (appends_patched _ (mkInstr jnm)) in H.
      * destruct H as [code H]. simpl in H. rewrite H, <- app_assoc. eauto.
      * apply appends_sequence. apply Forall_map.
        eapply Forall_impl; [exact IH|]. intros x Hx. apply Hx.
    + apply appends_seq; [apply appends_compile_expr|].
      apply appends_seq; [apply appends_compile_expr|].
      apply appends_seq; [apply appends_emit|].
      apply (appends_patched _ (mkInstr (snd (relop_code o)))).
      apply appends_sequence. apply Forall_map.
      eapply Forall_impl; [exact IH|]. intros x Hx. apply Hx.
Qed.

Lemma appends_compile_block metrics sc l : appends (compile_block metrics sc l).
Proof.
  apply appends_sequence, Forall_map, Forall_forall.
  intros x _. apply appends_compile_stmt.
Qed.

(** C5. For each relational operator, the bytecode compiled from
    [1 OP 0] is the one the test table expects, and it holds the [cmp]
    operand and the branch of the table: [<] gives [cmp -1], [jnm];
    [<=] gives [cmp 1], [jm]; [==] gives [cmp 0], [jnm]; [!=] gives
    [cmp 0], [jm]; [>=] gives [cmp -1], [jm]; [>] gives [cmp 1], [jnm]. *)
Theorem relational_operators_cmp_and_branch :
  relational_code LT (-1) jnm /\
  relational_code LE 1 jm /\
  relational_code EQ 0 jnm /\
  relational_code NE 0 jm /\
  relational_code GE (-1) jm /\
  relational_code GT 1 jnm.
Proof.
  repeat split; unfold relational_code; eexists; exists 6; vm_compute; auto.
Qed.

(** C6. The line counter, whose source is [counter line_count] and
    [/$/ { line_count++ }], compiles to exactly [match 0; jnm 4; mload 0;
    inc 0], the bytecode its test expects; and whenever a program with a
    single pattern-triggered block compiles, its bytecode is [match 0],
    then [jnm] to the index just past the action block, then the block. *)
Theorem single_pattern_block_jnm_target :
  Compile line_counter =
    Some [mkInstr match_ 0; mkInstr jnm 4; mkInstr mload 0; mkInstr inc 0] /\
  source "simple line counter" =
    Some ("counter line_count" +:+ nl +:+ "/$/ { line_count++ }") /\
  expected "simple line counter" = Compile line_counter /\
  forall metrics pattern groups body code,
    Compile (mkProgram metrics [Cond (Regex pattern groups) body]) = Some code ->
    exists block,
      block_code metrics (Some (0%nat, groups)) body
        (mkCstate [mkInstr match_ 0; mkInstr jnm 0] [pattern] []) = Some block /\
      code = mkInstr match_ 0 :: mkInstr jnm (Z.of_nat (2 + length block)) :: block /\
      code !! 1%nat = Some (mkInstr jnm (Z.of_nat (length code))).
Proof.
  split; [reflexivity|]. split; [reflexivity|]. split; [reflexivity|].
  intros metrics pattern groups body code H.
  unfold Compile, compile_block in H. simpl in H.
  unfold bind at 1 in H. unfold bind at 1 in H. unfold add_re at 1 in H.
  unfold bind at 1 in H. unfold emit at 1 in H.
  unfold bind at 1 in H. unfold pc at 1 in H.
  unfold bind at 1 in H. unfold emit at 1 in H.
  unfold bind at 1 in H. simpl in H.
  fold (compile_block metrics (Some (0%nat, groups)) body) in H.
  unfold block_code.
  destruct (compile_block metrics (Some (0%nat, groups)) body _) as [[[] s1]|] eqn:E;
    [|discriminate].
  destruct (appends_compile_block _ _ _ _ _ E) as [block Hb]. simpl in Hb.
  unfold bind, pc, patch, ret in H. simpl in H. simplify_eq.
  exists block. rewrite Hb. simpl. auto.
Qed.

(** The first part holds of the line counter itself: its action block is
    [mload 0; inc 0], and index 4 is just past it. *)
Lemma single_pattern_block_jnm_target_witness :
  Compile line_counter = Some [mkInstr match_ 0; mkInstr jnm 4; mkInstr mload 0; mkInstr inc 0] /\
  exists block,
    block_code ["line_count"] (Some (0%nat, [""])) [Incr "line_count"]
      (mkCstate [mkInstr match_ 0; mkInstr jnm 0] ["$"] []) = Some block /\
    [mkInstr match_ 0; mkInstr jnm 4; mkInstr mload 0; mkInstr inc 0] =
      mkInstr match_ 0 :: mkInstr jnm (Z.of_nat (2 + length block)) :: block /\
    [mkInstr match_ 0; mkInstr jnm 4; mkInstr mload 0; mkInstr inc 0] !! 1%nat =
      Some (mkInstr jnm (Z.of_nat (length
        [mkInstr match_ 0; mkInstr jnm 4; mkInstr mload 0; mkInstr inc 0]))).
Proof.
  split; [reflexivity|].
  exact (proj2 (proj2 (proj2 single_pattern_block_jnm_target))
           ["line_count"] "$" [""] [Incr "line_count"] _ eq_refl).
Defined.

End CompilerFacts.

(** * The properties on the sample stores *)

(** [Add] of [lines_as_gauge] on the store that holds the counter
    [lines_old] under the same name and program. *)
Lemma Add_different_Kind_fails_witness :
  exists e w',
    Add sample_rthash 2%positive (reload_world sample_rthash) = Some (Some e, w') /\
    w' = reload_world sample_rthash /\
    Metrics (store w') !! hashMetric sample_rthash (store (reload_world sample_rthash))
                            "lines" "log.mtail" = Some 1%positive /\
    heap w' !! 1%positive = Some lines_old.
Proof.
  apply (Add_different_Kind_fails sample_rthash 2%positive lines_as_gauge
           1%positive lines_old (reload_world sample_rthash));
    [reflexivity|reflexivity|reflexivity|discriminate].
Defined.

(** [Add] of [lines_rekeyed], a counter with the keys [host; port], on the
    store that holds [lines_old], with the key [host]. *)
Lemma Add_changed_Keys_discards_witness :
  exists w',
    Add sample_rthash 3%positive (reload_world sample_rthash) = Some (None, w') /\
    Metrics (store w') =
      <[hashMetric sample_rthash (store (reload_world sample_rthash)) "lines" "log.mtail"
        := 3%positive]> (Metrics (store (reload_world sample_rthash))) /\
    heap w' = heap (reload_world sample_rthash) /\
    heap w' !! 3%positive = Some lines_rekeyed /\
    3%positive <> 1%positive.
Proof.
  apply (Add_changed_Keys_discards sample_rthash 3%positive lines_rekeyed
           1%positive lines_old (reload_world sample_rthash));
    [reflexivity|reflexivity|reflexivity|reflexivity|discriminate].
Defined.

(** [Range] with a callback that fails on the first Metric visited, the
    one at address 1: the Metric at address 2, which comes next, is not
    passed to it. *)
Lemma Range_stops_at_first_error_witness :
  (Range map_to_list id fails_on_1 twice_world =
     Some (Some (ErrOther "stop"), twice_world) /\
   calls_until_error fails_on_1 [1%positive] twice_world twice_world
     (Some (ErrOther "stop"))) /\
  [1%positive] `prefix_of` (map_to_list (Metrics (store (id twice_world)))).*2 /\
  (map_to_list (Metrics (store twice_world))).*2 = [1%positive; 2%positive].
Proof.
  pose proof (Range_stops_at_first_error map_to_list (fun mp => Permutation_refl _)
                id fails_on_1 twice_world) as (_ & _ & Hcalls & _ & Hkept).
  split; [|split].
  - apply Hcalls. vm_compute. reflexivity.
  - apply (Hkept ltac:(intros p s0 r s1 H; injection H as _ <-; reflexivity)
             (Some (ErrOther "stop")) twice_world).
    vm_compute. reflexivity.
  - vm_compute. reflexivity.
Defined.

(** [Range] with a callback that deletes the entry of [stale_metric]: it
    is called on the Metric at address 1, and the Metric at address 2,
    whose entry is gone when its turn comes, is passed over. *)
Example Range_passes_over_a_deleted_entry :
  exists w',
    Range map_to_list (id ∘ fst) (logged drops_stale) (twice_world, []) =
      Some (None, (w', [1%positive])) /\
    Metrics (store w') = {[ sample_rthash seed0 "twicelog.mtail" := 1%positive ]}.
Proof. eexists. split; vm_compute; reflexivity. Qed.

(** [Gc] at time 200 on a store with [errors_metric] and [stale_metric]. *)
Lemma Gc_keeps_every_Metric_witness :
  exists r w', Gc map_to_list 200 gc_world = Some (r, w') /\
    Metrics (store w') = Metrics (store gc_world) /\
    forall k p, Metrics (store gc_world) !! k = Some p ->
      Metrics (store w') !! k = Some p /\ is_Some (heap w' !! p).
Proof.
  apply (Gc_keeps_every_Metric map_to_list (fun mp => Permutation_refl _) 200 gc_world).
  intros k p H. simpl in H. stored_cases H; eexists; reflexivity.
Defined.

(** After that run every tuple of [stale_metric] is gone, and the Metric is
    still found under its name and program. *)
Example Gc_leaves_emptied_Metric_registered :
  exists w', Gc map_to_list 200 gc_world = Some (None, w') /\
    LabelValues <$> heap w' !! 2%positive = Some [] /\
    FindMetricOrNil sample_rthash "stale" "log.mtail" w' = Some (Some 2%positive, w').
Proof.
  eexists. split; [vm_compute; reflexivity|]. split; vm_compute; reflexivity.
Qed.

(** The same run: of [errors_metric] the tuple [a] goes, and [b], [c] (at
    exactly its expiry) and [d] (no expiry) stay. *)
Example Gc_sweeps_errors_metric :
  exists w', Gc map_to_list 200 gc_world = Some (None, w') /\
    (tuples <$> heap w' !! 1%positive) = Some [["b"]; ["c"]; ["d"]].
Proof. eexists. split; vm_compute; reflexivity. Qed.

Lemma Gc_removes_iff_expired_witness :
  exists w', Gc map_to_list 200 gc_world = Some (None, w') /\
    forall k p mv lv,
      Metrics (store gc_world) !! k = Some p ->
      heap gc_world !! p = Some mv ->
      lv ∈ LabelValues mv ->
      exists mv', heap w' !! p = Some mv' /\
        (lv ∉ LabelValues mv' <->
           0 < Expiry lv /\ Sub 200 (TimeUTC (Value lv)) > Expiry lv) /\
        (0 < Expiry lv < maxDuration ->
           (lv ∉ LabelValues mv' <-> 200 - TimeUTC (Value lv) > Expiry lv)) /\
        (0 < Expiry lv -> 200 - TimeUTC (Value lv) = Expiry lv ->
           lv ∈ LabelValues mv') /\
        (Expiry lv <= 0 -> lv ∈ LabelValues mv') /\
        (maxDuration <= Expiry lv -> lv ∈ LabelValues mv').
Proof.
  apply (Gc_removes_iff_expired map_to_list (fun mp => Permutation_refl _) 200 gc_world).
  intros k p H. simpl in H.
  stored_cases H; eexists; (split; [reflexivity|]);
    apply (bool_decide_unpack _); vm_compute; exact I.
Defined.

(** Where the rule that [Gc] removes a tuple if and only if
    [now - timestamp > Expiry] fails. First: [forever_lv] has the largest
    expiry and was written so long before [now] that the difference is
    above every Duration; [Sub] then returns the largest Duration, which
    is not above the expiry, and [Gc] keeps the tuple and changes
    nothing. No Metric method is called. Second, with [RemoveDatum] of
    the specification: [twice_metric] holds the expired tuple [a] twice,
    the first removal takes both and the second fails, [Gc] returns that
    error, and [stale_metric], next in the order, keeps its two tuples,
    both past their expiry. *)
Lemma Gc_keeps_tuples_past_their_expiry :
  (0 < Expiry forever_lv /\
   1700000000000000000 - TimeUTC (Value forever_lv) > Expiry forever_lv /\
   forever_lv ∈ LabelValues forever_metric /\
   Gc map_to_list 1700000000000000000 forever_world = Some (None, forever_world)) /\
  (exists e wb,
     Gc map_to_list 200 twice_world = Some (Some e, wb) /\
     heap wb !! 2%positive = Some stale_metric /\
     Forall (fun lv => 0 < Expiry lv /\ 200 - TimeUTC (Value lv) > Expiry lv)
            (LabelValues stale_metric)).
Proof.
  split.
  - split; [reflexivity|]. split; [reflexivity|]. split; [left|].
    vm_compute. reflexivity.
  - eexists _, _. split; [vm_compute; reflexivity|]. split; [vm_compute; reflexivity|].
    cbn [LabelValues stale_metric].
    repeat (apply Forall_cons_2; [simpl; lia|]). apply Forall_nil_2.
Qed.

(** [Gc] at time 200 on a store whose first Metric visited holds the
    expired tuple [a] twice: the first removal takes both, the second
    fails, and [stale_metric], next in the order, keeps its expired
    tuples. *)
Lemma Gc_stops_at_RemoveDatum_error_witness :
  exists e wb, Gc map_to_list 200 twice_world = Some (Some e, wb) /\
    forall q, q ∈ [(sample_rthash seed0 "stalelog.mtail", 2%positive)].*2 ->
      q ∉ ([] : list (N * positive)).*2 -> q <> 1%positive ->
      heap wb !! q = heap twice_world !! q.
Proof.
  eexists _, _.
  eapply (Gc_stops_at_RemoveDatum_error map_to_list 200 twice_world []
            (sample_rthash seed0 "twicelog.mtail") 1%positive
            [(sample_rthash seed0 "stalelog.mtail", 2%positive)]
            twice_world twice_metric
            [mkLabelValue ["a"] (mkDatum (IntVal 1) 100) 50]
            (mkLabelValue ["a"] (mkDatum (IntVal 2) 110) 50) []).
  - vm_compute. reflexivity.
  - constructor.
  - reflexivity.
  - reflexivity.
  - vm_compute. reflexivity.
  - reflexivity.
  - vm_compute. reflexivity.
Defined.

(** * Further properties of [Add] *)

Section AddFacts.

Context {ops : MetricOps}.
Variable rthash : Seed -> string -> uint64.

Lemma Metric_GetDatum_returns p labels m w :
  heap w !! p = Some m ->
  Metric_GetDatum p labels w =
    Some (snd (GetDatum m labels),
          set_heap w (<[p := fst (GetDatum m labels)]> (heap w))).
Proof.
  intros H. unfold Metric_GetDatum.
  rewrite (bind_Some _ _ _ _ _ (deref_Some _ _ _ H)).
  destruct (GetDatum m labels) as [m' r]. simpl.
  rewrite (bind_Some _ _ _ _ _ (assign_Some _ _ _ _ H)). reflexivity.
Qed.

(** What the loop of [Add] may change: the two objects it is given. *)
Lemma Add_copy_frame v m old : forall w w',
  Add_copy v m old w = Some (tt, w') ->
  store w' = store w /\
  dom (heap w') = dom (heap w) /\
  forall q, q <> v -> q <> m -> heap w' !! q = heap w !! q.
Proof.
  induction old as [|o rest IH]; intros w w' H; simpl in H.
  - unfold ret in H. simplify_eq. auto.
  - apply bind_inv in H as (r & w1 & Hg & H).
    apply Metric_GetDatum_frame in Hg as (Hs1 & Hd1 & Hh1).
    apply bind_inv in H as ([] & w2 & Hstep & H).
    apply IH in H as (Hs & Hd & Hh).
    assert (Hstep' : store w2 = store w1 /\ dom (heap w2) = dom (heap w1) /\
                     forall q, q <> m -> heap w2 !! q = heap w1 !! q).
    { destruct r as [d|e]; [|unfold ret in Hstep; simplify_eq; auto].
      apply bind_inv in Hstep as (err & w3 & Hr & Hstep).
      apply Metric_RemoveDatum_frame in Hr as (Hs3 & Hd3 & Hh3).
      destruct err as [e|].
      - unfold ret in Hstep. simplify_eq. auto.
      - apply appendLabelValue_frame in Hstep as (Hs2 & Hd2 & Hh2).
        split; [congruence|]. split; [congruence|].
        intros q Hq. rewrite Hh2, Hh3; auto. }
    destruct Hstep' as (Hs2 & Hd2 & Hh2).
    split; [congruence|]. split; [congruence|].
    intros q Hv Hm. rewrite Hh, Hh2, Hh1; auto.
Qed.

(** The loop of [Add] returns when its two objects exist. *)
Lemma Add_copy_returns v m old : forall w,
  is_Some (heap w !! v) ->
  is_Some (heap w !! m) ->
  exists w', Add_copy v m old w = Some (tt, w').
Proof.
  assert (Hkeep : forall p (q : positive) w w',
            frame_at p w w' -> is_Some (heap w !! q) -> is_Some (heap w' !! q)).
  { intros p q w w' (_ & Hd & _) Hq.
    apply elem_of_dom. rewrite Hd. apply elem_of_dom, Hq. }
  induction old as [|o rest IH]; intros w [vv Hv] [mv Hm]; simpl; [eauto|].
  pose proof (Metric_GetDatum_returns v (Labels o) vv w Hv) as Hg.
  rewrite (bind_Some _ _ _ _ _ Hg).
  pose proof (Metric_GetDatum_frame _ _ _ _ _ Hg) as Hf1.
  set (w1 := set_heap w (<[v := fst (GetDatum vv (Labels o))]> (heap w))) in *.
  assert (Hv1 : is_Some (heap w1 !! v)) by (apply (Hkeep v v w); eauto).
  assert (Hm1 : is_Some (heap w1 !! m)) by (apply (Hkeep v m w); eauto).
  destruct (snd (GetDatum vv (Labels o))) as [d|e].
  - destruct Hm1 as [m1 Hm1].
    pose proof (Metric_RemoveDatum_returns m (Labels o) m1 w1 Hm1) as Hr.
    rewrite bind_assoc, (bind_Some _ _ _ _ _ Hr).
    pose proof (Metric_RemoveDatum_frame _ _ _ _ _ Hr) as Hf2.
    set (w2 := set_heap w1 _) in *.
    assert (Hv2 : is_Some (heap w2 !! v)) by (apply (Hkeep m v w1); eauto).
    assert (Hm2 : is_Some (heap w2 !! m)) by (apply (Hkeep m m w1); eauto).
    destruct (snd (RemoveDatum m1 (Labels o))) as [e|].
    + unfold ret at 1. unfold bind at 1. apply IH; assumption.
    + destruct Hm2 as [m2 Hm2].
      pose proof (appendLabelValue_returns m (mkLabelValue (Labels o) d 0) m2 w2 Hm2) as Ha.
      rewrite (bind_Some _ _ _ _ _ Ha).
      pose proof (appendLabelValue_frame _ _ _ _ Ha) as Hf3.
      apply IH; [apply (Hkeep m v w2)|apply (Hkeep m m w2)]; eauto.
  - unfold ret at 1. unfold bind at 1. apply IH; assumption.
Qed.

(** X1. [Add] returns whenever [m] and the Metric stored under its key
    exist. It returns an error exactly when that stored Metric has
    another Kind; and whenever it returns nil, [FindMetricOrNil] of the
    name and program of [m] returns [m]. *)
Theorem Add_returns_and_registers m mv w :
  heap w !! m = Some mv ->
  (forall v, Metrics (store w) !! hashMetric rthash (store w) (Name mv) (Program mv) = Some v ->
     is_Some (heap w !! v)) ->
  exists r w', Add rthash m w = Some (r, w') /\
    (r = None ->
       FindMetricOrNil rthash (Name mv) (Program mv) w' = Some (Some m, w')) /\
    (r <> None <->
       exists v vv,
         Metrics (store w) !! hashMetric rthash (store w) (Name mv) (Program mv) = Some v /\
         heap w !! v = Some vv /\ MKind mv <> MKind vv).
Proof.
  intros Hm Hstored.
  destruct (Metrics (store w) !! hashMetric rthash (store w) (Name mv) (Program mv))
    as [v|] eqn:Hk.
  - destruct (Hstored v eq_refl) as [vv Hv].
    destruct (decide (MKind mv = MKind vv)) as [Hkind|Hkind].
    + assert (Hcopy : exists w1,
                (if (len (Keys vv) =? len (Keys mv))%nat && DeepEqual (Keys vv) (Keys mv)
                 then Add_copy v m (LabelValues vv) else ret tt) w = Some (tt, w1) /\
                store w1 = store w).
      { destruct (_ && _).
        - destruct (Add_copy_returns v m (LabelValues vv) w) as [w1 H1]; eauto.
          exists w1. split; [exact H1|]. apply (Add_copy_frame _ _ _ _ _ H1).
        - exists w. split; reflexivity. }
      destruct Hcopy as (w1 & Hcopy & Hs1).
      exists None. eexists. split; [|split].
      * unfold Add.
        rewrite (bind_Some _ _ _ _ _ (deref_Some _ _ _ Hm)).
        rewrite (bind_Some _ _ _ _ _ (get_store_Some _)). cbv beta zeta.
        rewrite (bind_Some _ _ _ _ _ (LoadOrStore_present _ _ _ _ Hk)).
        cbv beta iota zeta delta [negb].
        rewrite (bind_Some _ _ _ _ _ (deref_Some _ _ _ Hm)).
        rewrite (bind_Some _ _ _ _ _ (deref_Some _ _ _ Hv)).
        rewrite bool_decide_eq_true_2 by exact Hkind. cbv beta iota.
        rewrite (bind_Some _ _ _ _ _ Hcopy). reflexivity.
      * intros _. rewrite FindMetricOrNil_lookup, !hashMetric_concat. simpl.
        rewrite Hs1, lookup_insert_eq. reflexivity.
      * split; [intros H; contradiction|].
        intros (v' & vv' & Hk' & Hv' & Hne). simplify_eq.
    + exists (Some (ErrDifferentKind (Name mv) (MKind mv) (MKind vv))), w.
      split; [|split].
      * unfold Add.
        rewrite (bind_Some _ _ _ _ _ (deref_Some _ _ _ Hm)).
        rewrite (bind_Some _ _ _ _ _ (get_store_Some _)). cbv beta zeta.
        rewrite (bind_Some _ _ _ _ _ (LoadOrStore_present _ _ _ _ Hk)).
        cbv beta iota zeta delta [negb].
        rewrite (bind_Some _ _ _ _ _ (deref_Some _ _ _ Hm)).
        rewrite (bind_Some _ _ _ _ _ (deref_Some _ _ _ Hv)).
        rewrite bool_decide_eq_false_2 by exact Hkind. reflexivity.
      * intros H. discriminate.
      * split; [|intros _; discriminate]. intros _. eauto.
  - exists None. eexists. split; [apply (Add_absent _ _ _ _ Hm Hk)|]. split.
    + intros _. rewrite FindMetricOrNil_lookup, !hashMetric_concat. simpl.
      rewrite lookup_insert_eq. reflexivity.
    + split; [intros H; contradiction|]. intros (v & vv & Hk' & _). discriminate.
Qed.

(** X2. A call of [Add] that returns leaves the hash seed and the set of
    Metric objects as they were; of the map it changes at most the entry
    of the key of [m]; and of the objects it changes at most [m] and the
    Metric that was stored under that key. *)
Theorem Add_changes_only_its_key m mv w r w' :
  heap w !! m = Some mv ->
  Add rthash m w = Some (r, w') ->
  hashSeed (store w') = hashSeed (store w) /\
  dom (heap w') = dom (heap w) /\
  (forall k, k <> hashMetric rthash (store w) (Name mv) (Program mv) ->
     Metrics (store w') !! k = Metrics (store w) !! k) /\
  (forall q, q <> m ->
     Metrics (store w) !! hashMetric rthash (store w) (Name mv) (Program mv) <> Some q ->
     heap w' !! q = heap w !! q).
Proof.
  intros Hm H. unfold Add in H.
  rewrite (bind_Some _ _ _ _ _ (deref_Some _ _ _ Hm)) in H.
  rewrite (bind_Some _ _ _ _ _ (get_store_Some _)) in H. cbv beta zeta in H.
  destruct (Metrics (store w) !! hashMetric rthash (store w) (Name mv) (Program mv))
    as [v|] eqn:Hk.
  - rewrite (bind_Some _ _ _ _ _ (LoadOrStore_present _ _ _ _ Hk)) in H.
    cbv beta iota zeta delta [negb] in H.
    rewrite (bind_Some _ _ _ _ _ (deref_Some _ _ _ Hm)) in H.
    apply bind_inv in H as (vv & w1 & Hd & H).
    unfold deref in Hd. destruct (heap w !! v) as [vv0|]; [|discriminate].
    injection Hd as ? ?. subst vv0 w1.
    destruct (bool_decide (MKind mv = MKind vv)); cbv beta iota in H.
    2:{ unfold ret in H. simplify_eq. auto. }
    apply bind_inv in H as ([] & w2 & Hcopy & H).
    assert (Hf : store w2 = store w /\ dom (heap w2) = dom (heap w) /\
                 forall q, q <> v -> q <> m -> heap w2 !! q = heap w !! q).
    { destruct (_ && _); [eapply Add_copy_frame, Hcopy|].
      unfold ret in Hcopy. simplify_eq. auto. }
    destruct Hf as (Hs & Hdom & Hh).
    unfold bind, Map_Store, ret in H. simplify_eq. simpl. rewrite Hs.
    split; [reflexivity|]. split; [exact Hdom|]. split.
    + intros k Hne. apply lookup_insert_ne. congruence.
    + intros q Hqm Hqv. apply Hh; congruence.
  - rewrite (bind_Some _ _ _ _ _ (LoadOrStore_absent _ _ _ Hk)) in H.
    unfold ret in H. simpl in H. simplify_eq. simpl.
    split; [reflexivity|]. split; [reflexivity|]. split; [|reflexivity].
    intros k Hne. apply lookup_insert_ne. congruence.
Qed.

(** X10. [FindMetricOrNil] reads only: it returns in the state it was
    called in. In a store built from [NewStore] by calls of [Add], it
    returns a Metric only for a name and program whose bytes, one after
    the other, hash to the key of the name and program of a Metric that
    was passed to [Add]; for any other name and program it returns nil. *)
Theorem FindMetricOrNil_returns_only_added_keys w ids name prog r w' :
  reached rthash w ids ->
  FindMetricOrNil rthash name prog w = Some (r, w') ->
  w' = w /\
  (r <> None ->
     exists n pr, (n, pr) ∈ ids /\
       rthash (hashSeed (store w)) (n +:+ pr) =
       rthash (hashSeed (store w)) (name +:+ prog)).
Proof.
  intros Hr H. rewrite FindMetricOrNil_lookup, hashMetric_concat in H.
  injection H as Hres Hw. split; [symmetry; exact Hw|].
  intros Hsome.
  destruct (Metrics (store w) !! rthash (hashSeed (store w)) (name +:+ prog))
    as [p|] eqn:Hk; [|subst r; contradiction].
  destruct (reached_keys rthash w ids Hr _ p Hk) as (n & pr & Hin & Heq).
  exists n, pr. split; [exact Hin|]. symmetry. exact Heq.
Qed.

End AddFacts.

(** * Further properties of the iteration over the store *)

Section ServiceFacts.

Context {ops : MetricOps}.
Variable rthash : Seed -> string -> uint64.
Variable visit : gmap N positive -> list (N * positive).
Variable json_Marshal : gmap positive Metric -> list positive -> result string.

Hypothesis visit_enumerates : forall mp, visit mp ≡ₚ map_to_list mp.

Lemma visited_stored w k p :
  (k, p) ∈ visit (Metrics (store w)) <-> Metrics (store w) !! k = Some p.
Proof. rewrite (visit_enumerates (Metrics (store w))). apply elem_of_map_to_list. Qed.

(** *** [ClearMetrics] *)

Lemma ClearMetrics_deletes began es : forall w,
  exists w',
    Map_Range (fun w0 => Metrics (store w0)) began
      (fun key (value : positive) => Map_Delete key ;;; ret true) es w = Some (tt, w') /\
    heap w' = heap w /\
    hashSeed (store w') = hashSeed (store w) /\
    forall k, Metrics (store w') !! k =
              if decide (k ∈ es.*1) then None else Metrics (store w) !! k.
Proof.
  induction es as [|[k0 p0] es IH]; intros w.
  - exists w. split; [reflexivity|]. split; [reflexivity|]. split; [reflexivity|].
    intros k. rewrite fmap_nil, decide_False by apply not_elem_of_nil. reflexivity.
  - cbn [Map_Range].
    destruct (Map_entry began (Metrics (store w)) k0 p0) as [v|] eqn:E.
    + destruct (IH (set_Metrics w (delete k0 (Metrics (store w)))))
        as (w' & H & Hh & Hs & Hk).
      exists w'. split; [exact H|]. split; [exact Hh|]. split; [exact Hs|].
      intros k. rewrite Hk, fmap_cons. cbn [fst set_Metrics store Metrics].
      destruct (decide (k = k0)) as [->|Hne].
      * rewrite (decide_True (P := k0 ∈ k0 :: es.*1)) by left.
        rewrite lookup_delete_eq. destruct (decide (k0 ∈ es.*1)); reflexivity.
      * rewrite lookup_delete_ne by congruence.
        destruct (decide (k ∈ es.*1)) as [Hin|Hnin].
        -- rewrite decide_True by (right; exact Hin). reflexivity.
        -- rewrite decide_False; [reflexivity|].
           intros Hin. apply elem_of_cons in Hin as [?|?]; contradiction.
    + assert (Hgone : Metrics (store w) !! k0 = None).
      { unfold Map_entry in E.
        destruct (decide (Metrics (store w) !! k0 = began !! k0));
          [discriminate|exact E]. }
      destruct (IH w) as (w' & H & Hh & Hs & Hk).
      exists w'. split; [exact H|]. split; [exact Hh|]. split; [exact Hs|].
      intros k. rewrite Hk, fmap_cons. cbn [fst].
      destruct (decide (k = k0)) as [->|Hne].
      * rewrite (decide_True (P := k0 ∈ k0 :: es.*1)) by left.
        rewrite Hgone. destruct (decide (k0 ∈ es.*1)); reflexivity.
      * destruct (decide (k ∈ es.*1)) as [Hin|Hnin].
        -- rewrite decide_True by (right; exact Hin). reflexivity.
        -- rewrite decide_False; [reflexivity|].
           intros Hin. apply elem_of_cons in Hin as [?|?]; contradiction.
Qed.

(** X3. [ClearMetrics] returns and leaves the map of the store empty: it
    keeps the seed and every Metric object, and [FindMetricOrNil] then
    returns nil for every name and program. *)
Theorem ClearMetrics_empties_the_store w :
  exists w', ClearMetrics visit w = Some (tt, w') /\
    Metrics (store w') = ∅ /\
    hashSeed (store w') = hashSeed (store w) /\
    heap w' = heap w /\
    forall name prog, FindMetricOrNil rthash name prog w' = Some (None, w').
Proof.
  destruct (ClearMetrics_deletes (Metrics (store w)) (visit (Metrics (store w))) w)
    as (w' & H & Hh & Hs & Hk).
  assert (Hempty : Metrics (store w') = ∅).
  { apply map_eq. intros k. rewrite lookup_empty, Hk.
    destruct (decide (k ∈ (visit (Metrics (store w))).*1)) as [|Hnin]; [reflexivity|].
    destruct (Metrics (store w) !! k) as [p|] eqn:E; [|reflexivity].
    exfalso. apply Hnin. apply list_elem_of_fmap. exists (k, p).
    split; [reflexivity|]. apply visited_stored, E. }
  exists w'. split; [exact H|]. split; [exact Hempty|]. split; [exact Hs|].
  split; [exact Hh|].
  intros name prog. rewrite FindMetricOrNil_lookup, Hempty, lookup_empty. reflexivity.
Qed.

(** X11. After [ClearMetrics], [Add] of any Metric returns nil, whatever
    the store held under its name and program before, and copies nothing:
    every Metric object is as it was, and the map holds the key of [m],
    for [m], and no other key. *)
Theorem Add_after_ClearMetrics_starts_afresh m mv w :
  heap w !! m = Some mv ->
  exists w1 w2,
    ClearMetrics visit w = Some (tt, w1) /\
    Add rthash m w1 = Some (None, w2) /\
    heap w2 = heap w /\
    Metrics (store w2) = {[ hashMetric rthash (store w) (Name mv) (Program mv) := m ]}.
Proof.
  intros Hm.
  destruct (ClearMetrics_deletes (Metrics (store w)) (visit (Metrics (store w))) w)
    as (w1 & H & Hh & Hs & Hk).
  assert (Hempty : Metrics (store w1) = ∅).
  { apply map_eq. intros k. rewrite lookup_empty, Hk.
    destruct (decide (k ∈ (visit (Metrics (store w))).*1)) as [|Hnin]; [reflexivity|].
    destruct (Metrics (store w) !! k) as [p|] eqn:E; [|reflexivity].
    exfalso. apply Hnin. apply list_elem_of_fmap. exists (k, p).
    split; [reflexivity|]. apply visited_stored, E. }
  assert (Hm1 : heap w1 !! m = Some mv) by (rewrite Hh; exact Hm).
  exists w1. eexists. split; [exact H|]. split.
  - apply (Add_absent rthash m mv w1 Hm1). rewrite Hempty. apply lookup_empty.
  - simpl. split; [exact Hh|].
    rewrite Hempty, !hashMetric_concat, Hs. apply insert_empty.
Qed.

(** *** [MarshalJSON] *)

Lemma MarshalJSON_collects es : forall (w : World) (ms : list positive),
  Map_Range (fun wms => Metrics (store (fst wms))) (Metrics (store w))
    (fun (key : N) (value : positive) (wms : World * list positive) =>
       Some (true, (fst wms, snd wms ++ [value]))) es (w, ms) =
    Some (tt, (w, ms ++ es.*2)).
Proof.
  induction es as [|[k p] es IH]; intros w ms.
  - simpl. rewrite app_nil_r. reflexivity.
  - cbn [Map_Range]. unfold Map_entry. cbn [fst].
    rewrite decide_True by reflexivity. unfold bind. cbn [fst snd].
    rewrite IH, fmap_cons, <- app_assoc. reflexivity.
Qed.

(** X4. [MarshalJSON] marshals a list that holds every Metric of the store
    exactly once, none skipped whatever the store holds, and changes
    neither the store nor a Metric. *)
Theorem MarshalJSON_marshals_every_Metric w :
  exists ms,
    MarshalJSON visit json_Marshal w = Some (json_Marshal (heap w) ms, w) /\
    ms ≡ₚ (map_to_list (Metrics (store w))).*2 /\
    length ms = size (Metrics (store w)).
Proof.
  exists (visit (Metrics (store w))).*2.
  assert (Hperm : (visit (Metrics (store w))).*2 ≡ₚ (map_to_list (Metrics (store w))).*2)
    by apply fmap_Permutation, visit_enumerates.
  split; [|split; [exact Hperm|]].
  - unfold MarshalJSON. rewrite MarshalJSON_collects. reflexivity.
  - rewrite Hperm, length_fmap. apply length_map_to_list.
Qed.

(** *** [Gc] *)

Lemma Gc_loop_nothing_to_remove now p lvs w :
  Forall (fun lv => Expiry lv <= 0 \/ now - TimeUTC (Value lv) <= Expiry lv) lvs ->
  Gc_loop now p lvs w = Some (None, w).
Proof.
  induction 1 as [|lv lvs Hlv _ IH]; simpl; [reflexivity|].
  destruct (Expiry lv <=? 0) eqn:E1; [exact IH|].
  destruct (Sub now (TimeUTC (Value lv)) >? Expiry lv) eqn:E2; [|exact IH].
  exfalso. destruct (Sub_cases now (TimeUTC (Value lv))) as [[? E]|[[? E]|[? E]]];
    rewrite E in E2; unfold minDuration, maxDuration in *; lia.
Qed.

(** X5. When no LabelValue of a stored Metric is past its expiry (each
    has none, or [now - timestamp <= Expiry]), [Gc] returns nil and
    changes nothing, whatever [RemoveDatum] would do. *)
Theorem Gc_changes_nothing_when_nothing_expired now w :
  (forall k p, Metrics (store w) !! k = Some p ->
     exists mv, heap w !! p = Some mv /\
       forall lv, lv ∈ LabelValues mv ->
         Expiry lv <= 0 \/ now - TimeUTC (Value lv) <= Expiry lv) ->
  Gc visit now w = Some (None, w).
Proof.
  intros Hok. rewrite Gc_as_loop.
  assert (Hes : forall k p, (k, p) ∈ visit (Metrics (store w)) ->
            Gc_metric now p w = Some (None, w)).
  { intros k p Hin. destruct (Hok k p) as (mv & Hp & Hlvs); [apply visited_stored, Hin|].
    unfold Gc_metric. rewrite (bind_Some _ _ _ _ _ (deref_Some _ _ _ Hp)).
    apply Gc_loop_nothing_to_remove, Forall_forall, Hlvs. }
  revert Hes. generalize (visit (Metrics (store w))). intros es Hes.
  induction es as [|[k p] es IH]; [reflexivity|].
  cbn [Range_loop]. rewrite (bind_Some _ _ _ _ _ (Hes k p ltac:(left))).
  apply IH. intros k' p' Hin. apply (Hes k'). right. exact Hin.
Qed.

Lemma Gc_Range_loop_untouched now es : forall w r w',
  Range_loop (Gc_metric now) es w = Some (r, w') ->
  forall q, q ∉ es.*2 -> heap w' !! q = heap w !! q.
Proof.
  induction es as [|[k p] es IH]; intros w r w' H q Hq.
  - simpl in H. unfold ret in H. by simplify_eq.
  - cbn [Range_loop] in H. apply bind_inv in H as (err & w1 & Hp & H).
    rewrite fmap_cons in Hq. apply not_elem_of_cons in Hq as [Hne Hq].
    apply Gc_metric_frame in Hp as (_ & _ & Hh).
    destruct err as [e|].
    + unfold ret in H. simplify_eq. apply Hh, Hne.
    + rewrite (IH _ _ _ H q Hq). apply Hh, Hne.
Qed.

(** X6. [Gc] writes only to the Metrics the store maps a key to: a Metric
    object that is not registered is as it was after the run, whether
    [Gc] returns nil or an error. *)
Theorem Gc_leaves_unregistered_Metrics now w r w' :
  Gc visit now w = Some (r, w') ->
  forall q, (forall k, Metrics (store w) !! k <> Some q) ->
    heap w' !! q = heap w !! q.
Proof.
  intros H q Hq. rewrite Gc_as_loop in H.
  apply (Gc_Range_loop_untouched _ _ _ _ _ H).
  intros Hin. apply list_elem_of_fmap in Hin as ([k p] & -> & Hin).
  apply (Hq k). apply visited_stored, Hin.
Qed.

(** *** [StartGcLoop] *)

Lemma GcLoop_keeps events : forall w,
  (forall k p, Metrics (store w) !! k = Some p -> is_Some (heap w !! p)) ->
  exists logs w', GcLoop visit events w = Some (logs, w') /\
    store w' = store w /\ dom (heap w') = dom (heap w).
Proof.
  induction events as [|[now|] events IH]; intros w Hok; simpl; [eauto| |eauto].
  destruct (Gc_Range_loop_keeps now (visit (Metrics (store w))) w)
    as (r & w1 & H1 & Hs1 & Hd1).
  { intros k p Hin. apply (Hok k), visited_stored, Hin. }
  rewrite <- Gc_as_loop in H1. rewrite (bind_Some _ _ _ _ _ H1).
  destruct (IH w1) as (logs & w' & H & Hs & Hd).
  { intros k p Hk. apply elem_of_dom. rewrite Hd1. apply elem_of_dom.
    apply (Hok k). rewrite <- Hs1. exact Hk. }
  rewrite (bind_Some _ _ _ _ _ H). unfold ret.
  eexists _, w'. split; [reflexivity|]. split; congruence.
Qed.

(** X7. On a store whose Metrics exist, the loop of [StartGcLoop] returns
    for every sequence of ticks and ends of context, with every Metric
    still registered under its key. With a duration that is not positive
    it changes nothing. A tick whose [Gc] fails logs the error and the
    loop goes on with the events that follow; events after the end of the
    context have no effect. *)
Theorem StartGcLoop_keeps_every_Metric duration events w :
  (forall k p, Metrics (store w) !! k = Some p -> is_Some (heap w !! p)) ->
  (exists logs w', StartGcLoop visit duration events w = Some (logs, w') /\
     Metrics (store w') = Metrics (store w) /\
     dom (heap w') = dom (heap w)) /\
  (duration <= 0 -> StartGcLoop visit duration events w = Some ([], w)) /\
  (forall now rest e w1 logs w',
     0 < duration ->
     Gc visit now w = Some (Some e, w1) ->
     StartGcLoop visit duration rest w1 = Some (logs, w') ->
     StartGcLoop visit duration (Tick now :: rest) w = Some (e :: logs, w')) /\
  (forall ticks rest,
     StartGcLoop visit duration (ticks ++ Done :: rest) w =
     StartGcLoop visit duration (ticks ++ [Done]) w).
Proof.
  intros Hok. unfold StartGcLoop.
  destruct (duration <=? 0) eqn:Hd.
  - split; [exists [], w; auto|]. split; [reflexivity|]. split; [lia|reflexivity].
  - split; [|split; [lia|split]].
    + destruct (GcLoop_keeps events w Hok) as (logs & w' & H & Hs & Hdom).
      exists logs, w'. split; [exact H|]. split; congruence.
    + intros now rest e w1 logs w' _ HGc Hrest. simpl.
      rewrite (bind_Some _ _ _ _ _ HGc), (bind_Some _ _ _ _ _ Hrest). reflexivity.
    + intros ticks rest. clear Hok. revert w.
      induction ticks as [|[now|] ticks IH]; intros w; simpl; [reflexivity| |reflexivity].
      unfold bind. destruct (Gc visit now w) as [[err w1]|]; [|reflexivity].
      rewrite IH. reflexivity.
Qed.

End ServiceFacts.

(** * Further properties with the Metric methods of the specification *)

Section SpecFacts.

Variable rthash : Seed -> string -> uint64.
Variable visit : gmap N positive -> list (N * positive).
Hypothesis visit_enumerates : forall mp, visit mp ≡ₚ map_to_list mp.

Lemma World_eq (w1 w2 : World) : store w1 = store w2 -> heap w1 = heap w2 -> w1 = w2.
Proof. destruct w1, w2. simpl. intros -> ->. reflexivity. Qed.

Lemma expired_later now1 now2 lv :
  now1 <= now2 -> expired now2 lv = false -> expired now1 lv = false.
Proof.
  unfold expired. intros Hle.
  pose proof (Sub_mono now1 now2 (TimeUTC (Value lv)) Hle) as Hmono.
  destruct (Expiry lv <=? 0); [reflexivity|]. simpl.
  destruct (Sub now2 (TimeUTC (Value lv)) >? Expiry lv) eqn:E2; [discriminate|].
  destruct (Sub now1 (TimeUTC (Value lv)) >? Expiry lv) eqn:E1; [lia|reflexivity].
Qed.

Lemma sweep_later now1 now2 mv :
  now1 <= now2 -> sweep now2 (sweep now1 mv) = sweep now2 mv.
Proof.
  intros Hle. unfold sweep. simpl. f_equal.
  rewrite list_filter_filter. apply list_filter_iff.
  intros lv. split; [tauto|]. eauto using expired_later.
Qed.

(** X8. With [RemoveDatum] of the specification, on a store whose Metrics
    exist and hold each label tuple once, a run of [Gc] followed by a run
    at the same or a later time ends in exactly the state of that later
    run alone; so a second run at the same time changes nothing. Every
    run returns nil. *)
Theorem Gc_later_run_subsumes now1 now2 w :
  now1 <= now2 ->
  (forall k p, Metrics (store w) !! k = Some p ->
     exists mv, heap w !! p = Some mv /\ NoDup (tuples mv)) ->
  exists w1 w2,
    Gc visit now1 w = Some (None, w1) /\
    Gc visit now2 w1 = Some (None, w2) /\
    Gc visit now2 w = Some (None, w2).
Proof.
  intros Hle Hok.
  assert (Hes : forall k p, (k, p) ∈ visit (Metrics (store w)) ->
            exists mv, heap w !! p = Some mv /\ NoDup (tuples mv)).
  { intros k p Hin. apply (Hok k). apply elem_of_map_to_list.
    rewrite <- (visit_enumerates (Metrics (store w))). exact Hin. }
  destruct (Gc_Range_loop_sweeps visit visit_enumerates now1 _ w Hes)
    as (w1 & H1 & Hs1 & Hh1).
  destruct (Gc_Range_loop_sweeps visit visit_enumerates now2 _ w Hes)
    as (w2' & H2' & Hs2' & Hh2').
  destruct (Gc_Range_loop_sweeps visit visit_enumerates now2
              (visit (Metrics (store w))) w1) as (w2 & H2 & Hs2 & Hh2).
  { intros k p Hin. destruct (Hes k p Hin) as (mv & Hp & Hnd).
    exists (sweep now1 mv). rewrite Hh1, Hp.
    rewrite decide_True by (apply list_elem_of_fmap; exists (k, p); auto).
    split; [reflexivity|]. apply sweep_NoDup, Hnd. }
  assert (Heq : w2 = w2').
  { apply World_eq; [congruence|]. apply map_eq. intros q.
    rewrite Hh2, Hh2', Hh1.
    destruct (decide (q ∈ (visit (Metrics (store w))).*2)); [|reflexivity].
    destruct (heap w !! q) as [mv|]; [|reflexivity].
    simpl. rewrite sweep_later by exact Hle. reflexivity. }
  subst w2'. exists w1, w2.
  rewrite !(Gc_as_loop visit), Hs1. auto.
Qed.

(** *** [Add] of another object with the same Kind and Keys *)

Lemma copied_elem (old : list LabelValue) : forall cur x,
  NoDup (Labels <$> old) ->
  x ∈ copied old cur <->
    (x ∈ cur /\ Labels x ∉ Labels <$> old) \/
    (exists o, o ∈ old /\ Labels o ∈ Labels <$> cur /\ x = without_expiry o).
Proof.
  induction old as [|o rest IH]; intros cur x Hnd.
  - simpl. split.
    + intros Hx. left. split; [exact Hx|apply not_elem_of_nil].
    + intros [[Hx _]|(o & Ho & _)]; [exact Hx|by apply elem_of_nil in Ho].
  - rewrite fmap_cons in Hnd. apply NoDup_cons in Hnd as [Ho Hnd].
    cbn [copied]. rewrite (IH _ _ Hnd). clear IH.
    destruct (decide (Labels o ∈ Labels <$> cur)) as [Hin|Hnin].
    + assert (Hlab : forall t, t ∈ Labels <$> (filter (fun y => Labels y <> Labels o) cur ++
                                 [mkLabelValue (Labels o) (Value o) 0]) <->
                               t ∈ Labels <$> cur).
      { intros t. pose proof (copied_tuples [o] cur t) as Ht.
        cbn [copied] in Ht. rewrite decide_True in Ht by exact Hin. exact Ht. }
      split.
      * intros [[Hx Hrest]|(o' & Ho' & Hl & ->)].
        -- apply elem_of_app in Hx as [Hx|Hx].
           ++ apply list_elem_of_filter in Hx as [Hne Hx].
              left. split; [exact Hx|]. rewrite fmap_cons.
              apply not_elem_of_cons. auto.
           ++ apply list_elem_of_singleton in Hx as ->.
              right. exists o. split; [left|]. auto.
        -- right. exists o'. split; [right; exact Ho'|]. split; [|reflexivity].
           apply Hlab, Hl.
      * intros [[Hx Hl]|(o' & Ho' & Hl & ->)].
        -- rewrite fmap_cons in Hl. apply not_elem_of_cons in Hl as [Hne Hl].
           left. split; [|exact Hl]. apply elem_of_app. left.
           apply list_elem_of_filter. auto.
        -- apply elem_of_cons in Ho' as [->|Ho'].
           ++ left. split; [|exact Ho]. apply elem_of_app. right.
              apply list_elem_of_singleton. reflexivity.
           ++ right. exists o'. split; [exact Ho'|]. split; [|reflexivity].
              apply Hlab, Hl.
    + split.
      * intros [[Hx Hrest]|(o' & Ho' & Hl & ->)].
        -- left. split; [exact Hx|]. rewrite fmap_cons. apply not_elem_of_cons.
           split; [|exact Hrest]. intros Heq. apply Hnin. rewrite <- Heq.
           apply list_elem_of_fmap_2, Hx.
        -- right. exists o'. split; [right; exact Ho'|]. auto.
      * intros [[Hx Hl]|(o' & Ho' & Hl & ->)].
        -- rewrite fmap_cons in Hl. apply not_elem_of_cons in Hl as [_ Hl]. auto.
        -- apply elem_of_cons in Ho' as [->|Ho']; [contradiction|].
           right. exists o'. auto.
Qed.

(** X9. With [GetDatum] and [RemoveDatum] of the specification, [Add] on
    a key that maps to another object [v] with the Kind of [m] and with
    Keys deeply equal to those of [m] (both nil, or both not nil with the
    same strings in the same order), when [v] holds each label tuple
    once: [Add] returns nil
    and leaves [v] as it was; [m] keeps its name, program, Kind and Keys,
    and its LabelValues are then its own ones whose tuple [v] does not
    hold, unchanged, and, for each tuple of [v] that [m] held, that tuple
    with the Datum of [v] and no expiry. *)
Theorem Add_same_Keys_result m mv v vv w :
  v <> m ->
  heap w !! m = Some mv ->
  Metrics (store w) !! hashMetric rthash (store w) (Name mv) (Program mv) = Some v ->
  heap w !! v = Some vv ->
  MKind mv = MKind vv ->
  Keys mv = Keys vv ->
  NoDup (tuples vv) ->
  exists w' lvs,
    Add rthash m w = Some (None, w') /\
    heap w' !! v = Some vv /\
    heap w' !! m = Some (set_LabelValues mv lvs) /\
    forall x, x ∈ lvs <->
      (x ∈ LabelValues mv /\ Labels x ∉ tuples vv) \/
      (exists lv, lv ∈ LabelValues vv /\ Labels lv ∈ tuples mv /\ x = without_expiry lv).
Proof.
  intros Hvm Hm Hk Hv Hkind Hkeys Hnd.
  destruct (Add_copy_copied v m vv (LabelValues vv) mv w Hvm Hv Hm Hnd)
    as (w1 & Hcopy & Hs & Hh); [auto|].
  eexists _, (copied (LabelValues vv) (LabelValues mv)).
  split; [exact (Add_same_Keys rthash m mv v vv w w1 Hm Hk Hv Hkind Hkeys Hcopy)|].
  simpl. rewrite Hh, lookup_insert_eq, lookup_insert_ne by congruence.
  split; [exact Hv|]. split; [reflexivity|].
  intros x. apply copied_elem, Hnd.
Qed.

End SpecFacts.

(** * The further properties on the sample stores *)

(** [Add] of [lines_fresh] on the store that holds [lines_old] under the
    same name and program, with the same Kind. *)
Lemma Add_returns_and_registers_witness :
  exists r w', Add sample_rthash 4%positive (reload_world sample_rthash) = Some (r, w') /\
    (r = None ->
       FindMetricOrNil sample_rthash (Name lines_fresh) (Program lines_fresh) w' =
         Some (Some 4%positive, w')) /\
    (r <> None <->
       exists v vv,
         Metrics (store (reload_world sample_rthash))
           !! hashMetric sample_rthash (store (reload_world sample_rthash))
                (Name lines_fresh) (Program lines_fresh) = Some v /\
         heap (reload_world sample_rthash) !! v = Some vv /\
         MKind lines_fresh <> MKind vv).
Proof.
  apply (Add_returns_and_registers sample_rthash 4%positive lines_fresh
           (reload_world sample_rthash)); [reflexivity|].
  intros v H. vm_compute in H. injection H as <-. eexists. reflexivity.
Defined.

(** The same call: the objects 2 and 3 and every other key are as before. *)
Lemma Add_changes_only_its_key_witness :
  exists r w',
    Add sample_rthash 4%positive (reload_world sample_rthash) = Some (r, w') /\
    hashSeed (store w') = hashSeed (store (reload_world sample_rthash)) /\
    dom (heap w') = dom (heap (reload_world sample_rthash)) /\
    (forall k,
       k <> hashMetric sample_rthash (store (reload_world sample_rthash))
              (Name lines_fresh) (Program lines_fresh) ->
       Metrics (store w') !! k = Metrics (store (reload_world sample_rthash)) !! k) /\
    (forall q, q <> 4%positive ->
       Metrics (store (reload_world sample_rthash))
         !! hashMetric sample_rthash (store (reload_world sample_rthash))
              (Name lines_fresh) (Program lines_fresh) <> Some q ->
       heap w' !! q = heap (reload_world sample_rthash) !! q).
Proof.
  eexists _, _. split; [vm_compute; reflexivity|].
  apply (Add_changes_only_its_key sample_rthash 4%positive lines_fresh
           (reload_world sample_rthash) None); [reflexivity|vm_compute; reflexivity].
Defined.

(** A store that was reached by one [Add], asked for another name and
    program with the same bytes. *)
Lemma FindMetricOrNil_returns_only_added_keys_witness :
  ab_world = ab_world /\
  (Some 1%positive <> None ->
     exists n pr, (n, pr) ∈ [("ab", "c")] /\
       sample_rthash (hashSeed (store ab_world)) (n +:+ pr) =
       sample_rthash (hashSeed (store ab_world)) ("a" +:+ "bc")).
Proof.
  apply (FindMetricOrNil_returns_only_added_keys sample_rthash ab_world [("ab", "c")]
           "a" "bc" (Some 1%positive) ab_world); [|reflexivity].
  apply (reached_Add sample_rthash (mkWorld (NewStore seed0) {[ 1%positive := ab_c ]}) []
           1%positive ab_c None ab_world);
    [apply reached_new|reflexivity|reflexivity].
Defined.

(** [ClearMetrics] on the store with [errors_metric] and [stale_metric]. *)
Lemma ClearMetrics_empties_the_store_witness :
  exists w', ClearMetrics map_to_list gc_world = Some (tt, w') /\
    Metrics (store w') = ∅ /\
    hashSeed (store w') = hashSeed (store gc_world) /\
    heap w' = heap gc_world /\
    forall name prog, FindMetricOrNil sample_rthash name prog w' = Some (None, w').
Proof.
  apply (ClearMetrics_empties_the_store sample_rthash map_to_list
           (fun mp => Permutation_refl _) gc_world).
Defined.

(** [Add] of [lines_as_gauge], which the store that holds the counter
    [lines_old] refuses, goes through once the store is cleared. *)
Lemma Add_after_ClearMetrics_starts_afresh_witness :
  exists w1 w2,
    ClearMetrics map_to_list (reload_world sample_rthash) = Some (tt, w1) /\
    Add sample_rthash 2%positive w1 = Some (None, w2) /\
    heap w2 = heap (reload_world sample_rthash) /\
    Metrics (store w2) =
      {[ hashMetric sample_rthash (store (reload_world sample_rthash))
           (Name lines_as_gauge) (Program lines_as_gauge) := 2%positive ]}.
Proof.
  apply (Add_after_ClearMetrics_starts_afresh sample_rthash map_to_list
           (fun mp => Permutation_refl _) 2%positive lines_as_gauge
           (reload_world sample_rthash)).
  reflexivity.
Defined.

(** [MarshalJSON] on the store with [errors_metric] and [stale_metric]. *)
Lemma MarshalJSON_marshals_every_Metric_witness :
  exists ms,
    MarshalJSON map_to_list sample_Marshal gc_world =
      Some (sample_Marshal (heap gc_world) ms, gc_world) /\
    ms ≡ₚ (map_to_list (Metrics (store gc_world))).*2 /\
    length ms = size (Metrics (store gc_world)).
Proof.
  apply (MarshalJSON_marshals_every_Metric map_to_list sample_Marshal
           (fun mp => Permutation_refl _) gc_world).
Defined.

(** [Gc] at time 30, when no tuple of [errors_metric] or [stale_metric] is
    past its expiry. *)
Lemma Gc_changes_nothing_when_nothing_expired_witness :
  Gc map_to_list 30 gc_world = Some (None, gc_world).
Proof.
  apply (Gc_changes_nothing_when_nothing_expired map_to_list
           (fun mp => Permutation_refl _) 30 gc_world).
  intros k p H. simpl in H.
  stored_cases H; eexists; (split; [reflexivity|]);
    apply Forall_forall; cbn [LabelValues errors_metric stale_metric];
    repeat (apply Forall_cons_2; [simpl; lia|]); apply Forall_nil_2.
Defined.

(** [Gc] at time 300 on the store that holds [lines_old] alone: the
    Metrics 2, 3 and 4, which the store does not hold, are as before. *)
Lemma Gc_leaves_unregistered_Metrics_witness :
  exists r w', Gc map_to_list 300 (reload_world sample_rthash) = Some (r, w') /\
    forall q, (forall k, Metrics (store (reload_world sample_rthash)) !! k <> Some q) ->
      heap w' !! q = heap (reload_world sample_rthash) !! q.
Proof.
  eexists _, _. split; [vm_compute; reflexivity|].
  apply (Gc_leaves_unregistered_Metrics map_to_list (fun mp => Permutation_refl _) 300
           (reload_world sample_rthash) None).
  vm_compute. reflexivity.
Defined.

(** The loop with a tick every minute: two ticks, the end of the context,
    and a tick that comes too late. *)
Lemma StartGcLoop_keeps_every_Metric_witness :
  (exists logs w',
     StartGcLoop map_to_list 60 [Tick 200; Tick 300; Done; Tick 400] gc_world =
       Some (logs, w') /\
     Metrics (store w') = Metrics (store gc_world) /\
     dom (heap w') = dom (heap gc_world)) /\
  (60 <= 0 ->
     StartGcLoop map_to_list 60 [Tick 200; Tick 300; Done; Tick 400] gc_world =
       Some ([], gc_world)) /\
  (forall now rest e w1 logs w',
     0 < 60 ->
     Gc map_to_list now gc_world = Some (Some e, w1) ->
     StartGcLoop map_to_list 60 rest w1 = Some (logs, w') ->
     StartGcLoop map_to_list 60 (Tick now :: rest) gc_world = Some (e :: logs, w')) /\
  (forall ticks rest,
     StartGcLoop map_to_list 60 (ticks ++ Done :: rest) gc_world =
     StartGcLoop map_to_list 60 (ticks ++ [Done]) gc_world).
Proof.
  apply (StartGcLoop_keeps_every_Metric map_to_list (fun mp => Permutation_refl _) 60
           [Tick 200; Tick 300; Done; Tick 400] gc_world).
  intros k p H. simpl in H. stored_cases H; eexists; reflexivity.
Defined.

(** [Gc] at time 180 and then at time 200, against [Gc] at time 200. *)
Lemma Gc_later_run_subsumes_witness :
  exists w1 w2,
    Gc map_to_list 180 gc_world = Some (None, w1) /\
    Gc map_to_list 200 w1 = Some (None, w2) /\
    Gc map_to_list 200 gc_world = Some (None, w2).
Proof.
  apply (Gc_later_run_subsumes map_to_list (fun mp => Permutation_refl _) 180 200 gc_world);
    [lia|].
  intros k p H. simpl in H.
  stored_cases H; eexists; (split; [reflexivity|]);
    apply (bool_decide_unpack _); vm_compute; exact I.
Defined.

(** [Add] of [lines_partial] on the store that holds [lines_old]. *)
Lemma Add_same_Keys_result_witness :
  exists w' lvs,
    Add sample_rthash 5%positive partial_world = Some (None, w') /\
    heap w' !! 1%positive = Some lines_old /\
    heap w' !! 5%positive = Some (set_LabelValues lines_partial lvs) /\
    forall x, x ∈ lvs <->
      (x ∈ LabelValues lines_partial /\ Labels x ∉ tuples lines_old) \/
      (exists lv, lv ∈ LabelValues lines_old /\ Labels lv ∈ tuples lines_partial /\
                  x = without_expiry lv).
Proof.
  apply (Add_same_Keys_result sample_rthash 5%positive lines_partial 1%positive lines_old
           partial_world);
    [discriminate|reflexivity|reflexivity|reflexivity|reflexivity|reflexivity|].
  apply (bool_decide_unpack _). vm_compute. exact I.
Defined.

(** After that call [lines_partial] holds its own tuple [c] as it came,
    and the tuple [a] with the Datum of [lines_old] and no expiry; the
    tuple [b] of [lines_old] is not carried over. *)
Example Add_of_lines_partial :
  exists w', Add sample_rthash 5%positive partial_world = Some (None, w') /\
    LabelValues <$> heap w' !! 5%positive =
      Some [mkLabelValue ["c"] (mkDatum (IntVal 3) 190) 40;
            mkLabelValue ["a"] (mkDatum (IntVal 5) 100) 0].
Proof. eexists. split; vm_compute; reflexivity. Qed.
